(** * CSV_Program.py: lyric index, statistics and subset search

    A shallow embedding of [src/CSV_Program.py].

    - A Python [str] is a [string]; each [ascii] is read as the code point
      of the same number (0..255), and the built-in character classes
      ([str.isspace], [str.isalpha], [str.lower], [string.punctuation])
      are written out for that range.
    - A Python [set] of strings is a [gset string].
    - A Python [dict] keeps its insertion order, so it is an association
      list: assignment to a present key keeps the key's position, a new
      key goes to the end.
    - An exception is a value of [exn]; a function that can raise returns
      a [result].
    - A finite [float] is the rational number it denotes; the division of
      two [int]s rounds the exact quotient with [round_double], which the
      development leaves open. *)

From Stdlib Require Import Ascii String List QArith Lqa Sorted Permutation.
From stdpp Require Import gmap strings list sets sorting.

Local Open Scope string_scope.
Local Open Scope list_scope.

(** ** Python strings *)

Module PyStr.

Definition code (c : ascii) : N := N_of_ascii c.

Definition between (lo hi n : N) : bool := (lo <=? n)%N && (n <=? hi)%N.

(** [c.isspace()] *)
Definition isspace_char (c : ascii) : bool :=
  let n := code c in
  between 9 13 n || between 28 32 n || (n =? 133)%N || (n =? 160)%N.

(** [c.isalpha()] for one character *)
Definition isalpha_char (c : ascii) : bool :=
  let n := code c in
  between 65 90 n || between 97 122 n
  || (n =? 170)%N || (n =? 181)%N || (n =? 186)%N
  || between 192 214 n || between 216 246 n || between 248 255 n.

(** [c.isdigit()] for one character *)
Definition isdigit_char (c : ascii) : bool :=
  let n := code c in
  between 48 57 n || (n =? 178)%N || (n =? 179)%N || (n =? 185)%N.

(** [c.lower()] for one character *)
Definition lower_char (c : ascii) : ascii :=
  let n := code c in
  if between 65 90 n || between 192 214 n || between 216 222 n
  then ascii_of_N (n + 32)
  else c.

(** [string.punctuation] *)
Definition punctuation : string :=
  string_of_list_ascii
    (map ascii_of_nat
       [33; 34; 35; 36; 37; 38; 39; 40; 41; 42; 43; 44; 45; 46; 47; 58;
        59; 60; 61; 62; 63; 64; 91; 92; 93; 94; 95; 96; 123; 124; 125; 126]).

(** [c in chars] *)
Fixpoint char_in (c : ascii) (chars : string) : bool :=
  match chars with
  | EmptyString => false
  | String d chars' => Ascii.eqb c d || char_in c chars'
  end.

(** [s.lower()] *)
Fixpoint lower (s : string) : string :=
  match s with
  | EmptyString => EmptyString
  | String c s' => String (lower_char c) (lower s')
  end.

(** [s.isalpha()]: at least one character, and all alphabetic *)
Fixpoint all_chars (p : ascii -> bool) (s : string) : bool :=
  match s with
  | EmptyString => true
  | String c s' => p c && all_chars p s'
  end.

Definition isalpha (s : string) : bool :=
  match s with
  | EmptyString => false
  | String _ _ => all_chars isalpha_char s
  end.

(** Stripping the characters that satisfy [p] from the left, from the
    right, and from both ends. *)
Fixpoint lstrip_by (p : ascii -> bool) (s : string) : string :=
  match s with
  | EmptyString => EmptyString
  | String c s' => if p c then lstrip_by p s' else s
  end.

Fixpoint rstrip_by (p : ascii -> bool) (s : string) : string :=
  match s with
  | EmptyString => EmptyString
  | String c s' =>
      match rstrip_by p s' with
      | EmptyString => if p c then EmptyString else String c EmptyString
      | r => String c r
      end
  end.

Definition strip_by (p : ascii -> bool) (s : string) : string :=
  rstrip_by p (lstrip_by p s).

(** [s.strip()] *)
Definition strip (s : string) : string := strip_by isspace_char s.

(** [s.strip(chars)] *)
Definition strip_chars (chars : string) (s : string) : string :=
  strip_by (fun c => char_in c chars) s.

(** [s.split()]: the maximal runs of non-whitespace characters, in
    order.  A non-space character either ends its word (end of string or
    a space follows) or is put in front of the word that starts right
    after it. *)
Fixpoint split (s : string) : list string :=
  match s with
  | EmptyString => []
  | String c s' =>
      if isspace_char c then split s'
      else
        match s' with
        | EmptyString => [String c EmptyString]
        | String c' _ =>
            if isspace_char c' then String c EmptyString :: split s'
            else
              match split s' with
              | w :: ws => String c w :: ws
              | [] => [String c EmptyString]
              end
        end
  end.

(** [sep.join(ls)] *)
Definition join (sep : string) (ls : list string) : string :=
  String.concat sep ls.

(** [s1 < s2] and [s1 == s2] on strings: code points, lexicographically *)
Definition lt (s1 s2 : string) : bool := String.ltb s1 s2.
Definition eq (s1 s2 : string) : bool := String.eqb s1 s2.

(** Predicates on characters and words used in the properties: [c] is its
    own lower case *)
Definition is_lowered (c : ascii) : bool := Ascii.eqb (lower_char c) c.

(** [s] is empty or starts with a whitespace character *)
Definition at_break (s : string) : bool :=
  match s with
  | EmptyString => true
  | String c _ => isspace_char c
  end.

(** [w] is non-empty and has no whitespace character *)
Definition is_word (w : string) : Prop :=
  w <> "" /\ all_chars (fun c => negb (isspace_char c)) w = true.

End PyStr.

(** ** Exceptions *)

Inductive exn : Set :=
| StopIteration
| IndexError
| KeyError
| ZeroDivisionError.

Inductive result (A : Type) : Type :=
| Ok (a : A)
| Raise (e : exn).

Arguments Ok {A} a.
Arguments Raise {A} e.

#[global] Instance result_ret : MRet result := fun A a => Ok a.

#[global] Instance result_bind : MBind result := fun A B f m =>
  match m with
  | Ok a => f a
  | Raise e => Raise e
  end.

Definition is_ok {A} (r : result A) : bool :=
  match r with Ok _ => true | Raise _ => false end.

(** [l[i]] for a list and an index [i >= 0] *)
Definition index {A} (l : list A) (i : nat) : result A :=
  match l !! i with
  | Some x => Ok x
  | None => Raise IndexError
  end.

(** ** Python dictionaries with string keys *)

Abbreviation dict V := (list (string * V)).

Module PyDict.
Section ops.
Context {V : Type}.

(** [d.get(k)]; [k in d] is [get d k <> None] *)
Fixpoint get (d : dict V) (k : string) : option V :=
  match d with
  | [] => None
  | (k', v) :: d' => if decide (k' = k) then Some v else get d' k
  end.

(** [d[k] = v] *)
Fixpoint set (d : dict V) (k : string) (v : V) : dict V :=
  match d with
  | [] => [(k, v)]
  | (k', v') :: d' =>
      if decide (k' = k) then (k', v) :: d' else (k', v') :: set d' k v
  end.

(** [d[k]] *)
Definition getitem (d : dict V) (k : string) : result V :=
  match get d k with
  | Some v => Ok v
  | None => Raise KeyError
  end.

Definition keys (d : dict V) : list string := map fst d.
Definition values (d : dict V) : list V := map snd d.

(** The keys of a dictionary are pairwise different. *)
Definition wf (d : dict V) : Prop := NoDup (keys d).
End ops.
End PyDict.

(** ** Tokenizer and validator *)

Definition validate_word (word : string) (stopwords : gset string) : bool :=
  if bool_decide (word ∉ stopwords) && PyStr.isalpha word then true else false.

Definition process_lyrics (lyrics : string) (stopwords : gset string)
  : gset string :=
  let word_list :=
    map (fun word =>
           PyStr.strip_chars PyStr.punctuation (PyStr.strip (PyStr.lower word)))
        (PyStr.split lyrics) in
  fold_left
    (fun processed_set word =>
       if validate_word word stopwords
       then processed_set ∪ {[word]}
       else processed_set)
    word_list ∅.

(** The token that [process_lyrics] makes of one word of the text. *)
Definition normalize (word : string) : string :=
  PyStr.strip_chars PyStr.punctuation (PyStr.strip (PyStr.lower word)).

(** ** Corpus index *)

(** artist -> song -> word set *)
Abbreviation index_t := (dict (dict (gset string))).

Definition update_dictionary (data_dict : index_t)
    (singer song : string) (words : gset string) : index_t :=
  match PyDict.get data_dict singer with
  | None => PyDict.set data_dict singer [(song, words)]
  | Some songs =>
      PyDict.set data_dict singer (PyDict.set songs song words)
  end.

(** The body of the [for line in reader] loop. *)
Definition read_line (data_dict : index_t) (line : list string)
    (stopwords : gset string) : result index_t :=
  lyrics ← index line 2;
  let word_set := process_lyrics (PyStr.lower lyrics) stopwords in
  singer ← index line 0;
  song ← index line 1;
  mret (update_dictionary data_dict singer song word_set).

Fixpoint read_lines (data_dict : index_t) (reader : list (list string))
    (stopwords : gset string) : result index_t :=
  match reader with
  | [] => Ok data_dict
  | line :: reader' =>
      data_dict' ← read_line data_dict line stopwords;
      read_lines data_dict' reader' stopwords
  end.

(** [read_data]: [reader] is the sequence of rows that [csv.reader(fp)]
    yields; [next(reader)] drops the header and raises on an empty file. *)
Definition read_data (reader : list (list string)) (stopwords : gset string)
  : result index_t :=
  match reader with
  | [] => Raise StopIteration
  | _ :: reader' => read_lines [] reader' stopwords
  end.

(** ** Sorting and tuple comparison *)

(** [sorted(l, key=key, reverse=reverse)].  Python's sort is stable, also
    with [reverse=True], and a stable sort has one possible result; it is
    computed here by insertion from the right. *)
Section Sorting.
Context {A K : Type} (key : A -> K) (lt : K -> K -> bool).

Fixpoint insert_sorted (x : A) (l : list A) : list A :=
  match l with
  | [] => [x]
  | y :: l' =>
      if lt (key y) (key x) then y :: insert_sorted x l' else x :: y :: l'
  end.

Definition sort_stable (l : list A) : list A := foldr insert_sorted [] l.

End Sorting.

Definition sorted {A K} (l : list A) (key : A -> K) (lt : K -> K -> bool)
    (reverse : bool) : list A :=
  if reverse then sort_stable key (fun a b => lt b a) l
  else sort_stable key lt l.

(** [x < y] on 2-tuples: the first component where they differ decides. *)
Definition tuple_lt {A B} (eqA ltA : A -> A -> bool) (ltB : B -> B -> bool)
    (x y : A * B) : bool :=
  if eqA x.1 y.1 then ltB x.2 y.2 else ltA x.1 y.1.

Definition str_pair_lt : string * string -> string * string -> bool :=
  tuple_lt PyStr.eq PyStr.lt PyStr.lt.

(** A finite [float] is the rational it denotes. *)
Definition float_lt (x y : Q) : bool :=
  match (x ?= y)%Q with Lt => true | _ => false end.

Definition float_eq (x y : Q) : bool := Qeq_bool x y.

Definition float_int_lt : Q * nat -> Q * nat -> bool :=
  tuple_lt float_eq float_lt Nat.ltb.

(** ** Statistics *)

Definition song_word_total (songs : dict (gset string)) : nat :=
  fold_left (fun word_total word_set => word_total + size word_set)
    (PyDict.values songs) 0.

Definition find_singers_vocab (data_dict : index_t) : dict (gset string) :=
  fold_left
    (fun vocab_dict '(singer, songs) =>
       let union_set :=
         fold_left
           (fun union_set word_set =>
              fold_left (fun union_set word => union_set ∪ {[word]})
                (elements word_set) union_set)
           (PyDict.values songs) (∅ : gset string) in
       PyDict.set vocab_dict singer union_set)
    data_dict [].

Section Statistics.
(** [round_double q] is the [float] nearest to the rational [q]. *)
Variable round_double : Q -> Q.

(** [a / b] on two [int]s *)
Definition truediv (a b : nat) : result Q :=
  match b with
  | O => Raise ZeroDivisionError
  | S _ => Ok (round_double (Z.of_nat a # Pos.of_nat b))
  end.

Fixpoint average_loop (average_dict : dict Q) (items : index_t)
  : result (dict Q) :=
  match items with
  | [] => Ok average_dict
  | (singer, songs) :: items' =>
      let song_total := length (PyDict.keys songs) in
      let word_total := song_word_total songs in
      average ← truediv word_total song_total;
      average_loop (PyDict.set average_dict singer average) items'
  end.

Definition calculate_average_word_count (data_dict : index_t)
  : result (dict Q) :=
  average_loop [] data_dict.

(** The average that [average_loop] stores for one artist. *)
Definition average_of (songs : dict (gset string)) : Q :=
  round_double
    (Z.of_nat (sum_list (map size (PyDict.values songs)))
     # Pos.of_nat (length songs)).
End Statistics.

(** ** Ranking *)

(** (singer, average, vocabulary size, number of songs) *)
Abbreviation singer_tuple := (string * Q * nat * nat)%type.

(** The loop of [main] that builds [singers_list]. *)
Fixpoint singers_loop (singers_list : list singer_tuple) (items : index_t)
    (average_words : dict Q) (distinct_vocab : dict (gset string))
  : result (list singer_tuple) :=
  match items with
  | [] => Ok singers_list
  | (singer, songs) :: items' =>
      let song_total := length (PyDict.keys songs) in
      vocab ← PyDict.getitem distinct_vocab singer;
      let vocab_size := size vocab in
      average ← PyDict.getitem average_words singer;
      singers_loop (singers_list ++ [(singer, average, vocab_size, song_total)])
        items' average_words distinct_vocab
  end.

(** [itemgetter(1, 3)] *)
Definition itemgetter_1_3 (t : singer_tuple) : Q * nat :=
  let '(_, x1, _, x3) := t in (x1, x3).

(** What [display_singers] prints, line by line. *)
Inductive printed : Type :=
| Title
| Header
| Rule
| SingerRow (singer : string) (avg_word : Q) (song_total vocab_size : nat).

(** The line printed in the body of the [for] loop. *)
Definition singer_row (tuple_singer : singer_tuple) : printed :=
  let '(singer, avg_word, song_total, vocab_size) := tuple_singer in
  SingerRow singer avg_word song_total vocab_size.

Definition display_singers (combined_list : list singer_tuple)
  : list printed :=
  let singers_list := sorted combined_list itemgetter_1_3 float_int_lt true in
  [Title; Header; Rule] ++ map singer_row (take 10 singers_list).

(** ** Search *)

(** [itemgetter(0, 1)] on a pair *)
Definition itemgetter_0_1 (t : string * string) : string * string :=
  let '(x0, x1) := t in (x0, x1).

Fixpoint search_songs_of (match_list : list (string * string))
    (singer : string) (songs : dict (gset string)) (song_names : list string)
    (words : gset string) : result (list (string * string)) :=
  match song_names with
  | [] => Ok match_list
  | song_name :: song_names' =>
      word_set ← PyDict.getitem songs song_name;
      let match_list' :=
        if bool_decide (words ⊆ word_set)
        then match_list ++ [(singer, song_name)]
        else match_list in
      search_songs_of match_list' singer songs song_names' words
  end.

Fixpoint search_loop (match_list : list (string * string))
    (items : index_t) (words : gset string)
  : result (list (string * string)) :=
  match items with
  | [] => Ok match_list
  | (singer, songs) :: items' =>
      match_list' ←
        search_songs_of match_list singer songs (PyDict.keys songs) words;
      search_loop match_list' items' words
  end.

Definition search_songs (data_dict : index_t) (words : gset string)
  : result (list (string * string)) :=
  match_list ← search_loop [] data_dict words;
  mret (sorted match_list itemgetter_0_1 str_pair_lt false).

Fixpoint validate_loop (word_list : list string) (stopwords : gset string)
  : bool :=
  match word_list with
  | [] => true
  | word :: word_list' =>
      if negb (validate_word word stopwords) then false
      else validate_loop word_list' stopwords
  end.

Definition validate_set (word_set stopwords : gset string) : bool :=
  validate_loop (elements word_set) stopwords.

(** ** Stop words *)

(** [read_stopwords]: [fp] is the sequence of lines that iterating over
    the file yields, each with its line end. *)
Definition read_stopwords (fp : list string) : gset string :=
  list_to_set (map (fun word => PyStr.strip (PyStr.lower word)) fp).

(** ** The program *)

Section Main.
(** [round_double q] is the [float] nearest to the rational [q]. *)
Variable round_double : Q -> Q.

(** The part of [main] from the statistics to [singers_list]. *)
Definition main_singers_list (data_dict : index_t)
  : result (list singer_tuple) :=
  average_words ← calculate_average_word_count round_double data_dict;
  let distinct_vocab := find_singers_vocab data_dict in
  singers_loop [] data_dict average_words distinct_vocab.

(** [main] up to the call of [display_singers]: [stop_fp] holds the lines
    of the stop word file and [reader] the rows of the song file. *)
Definition main_report (stop_fp : list string) (reader : list (list string))
  : result (list printed) :=
  let stopwords := read_stopwords stop_fp in
  data_dict ← read_data reader stopwords;
  singers_list ← main_singers_list data_dict;
  mret (display_singers singers_list).
End Main.

(** What one turn of the search loop of [main] prints. *)
Inductive shown : Type :=
| ErrorInWords
| SongCount (n : nat)
| SongHeader
| SongRow (singer song : string).

(** One turn of the [while True] loop of [main] on the line that
    [input] returns: [None] is the [break], [Some out] a turn that prints
    [out] and goes on. *)
Definition answer (data_dict : index_t) (stopwords : gset string)
    (line : string) : result (option (list shown)) :=
  let user_set : gset string :=
    list_to_set (PyStr.split (PyStr.lower line)) in
  if bool_decide (user_set = ∅) then Ok None
  else if negb (validate_set user_set stopwords) then Ok (Some [ErrorInWords])
  else
    searched_list ← search_songs data_dict user_set;
    if Nat.eqb (length searched_list) 0
    then mret (Some [SongCount (length searched_list)])
    else
      mret (Some ([SongCount (length searched_list); SongHeader]
                  ++ map (fun line : string * string =>
                            let '(singer, song) := line in SongRow singer song)
                       (take 5 searched_list))).

(** How the search loop ends on the lines [inputs] that [input] returns
    one after the other: it leaves through [break] with lines unread, an
    exception escapes, or [input] finds no line left. *)
Inductive session : Type :=
| Exits (out : list shown) (unread : list string)
| Fails (out : list shown) (e : exn)
| EndOfInput (out : list shown).

Definition printed_before (out : list shown) (s : session) : session :=
  match s with
  | Exits out' unread => Exits (out ++ out') unread
  | Fails out' e => Fails (out ++ out') e
  | EndOfInput out' => EndOfInput (out ++ out')
  end.

Fixpoint search_lyrics (data_dict : index_t) (stopwords : gset string)
    (inputs : list string) : session :=
  match inputs with
  | [] => EndOfInput []
  | line :: inputs' =>
      match answer data_dict stopwords line with
      | Raise e => Fails [] e
      | Ok None => Exits [] inputs'
      | Ok (Some out) =>
          printed_before out (search_lyrics data_dict stopwords inputs')
      end
  end.

(** The insert that [read_data] makes for a row with three fields or
    more. *)
Definition row_insert (stopwords : gset string) (line : list string)
  : string * string * gset string :=
  (nth 0 line "", nth 1 line "",
   process_lyrics (PyStr.lower (nth 2 line "")) stopwords).

(** [s] is empty or starts with a character outside [p] *)
Definition lstripped (p : ascii -> bool) (s : string) : Prop :=
  match s with
  | EmptyString => True
  | String c _ => p c = false
  end.

(** Every word stored in the index passes [validate_word]. *)
Definition words_valid (stopwords : gset string) (data_dict : index_t)
  : Prop :=
  Forall
    (fun entry =>
       Forall (fun song => forall w, w ∈ song.2 ->
                                      validate_word w stopwords = true)
         entry.2)
    data_dict.

(** The query that a turn of the search loop makes of the line typed. *)
Definition query_of (line : string) : gset string :=
  list_to_set (PyStr.split (PyStr.lower line)).

(** The row printed for a song that was found. *)
Definition song_row (line : string * string) : shown :=
  let '(singer, song) := line in SongRow singer song.

(** The words of all the songs of one artist. *)
Definition vocabulary_of (songs : dict (gset string)) : gset string :=
  ⋃ (PyDict.values songs).

(** The tuple that [main] makes for one artist of the index. *)
Definition singer_tuple_of (round_double : Q -> Q)
    (entry : string * dict (gset string)) : singer_tuple :=
  (entry.1, average_of round_double entry.2, size (vocabulary_of entry.2),
   length entry.2).

(** The number of songs of the index, all artists together. *)
Definition song_count (data_dict : index_t) : nat :=
  sum_list (map (fun entry => length entry.2) data_dict).

(** ** Example data *)

Definition stop_ex : gset string := {["the"; "a"]}.

Definition rows_ex : list (list string) :=
  [ ["artist"; "song"; "text"];
    ["Art1"; "S1"; "the cat sat"];
    ["Art1"; "S2"; "a dog ran fast"] ].

Definition index_ex : index_t :=
  [("Art1", [("S1", {["cat"; "sat"]}); ("S2", {["dog"; "ran"; "fast"]})])].

Definition index_ex' : index_t :=
  [("Art1", [("S2", {["dog"; "ran"; "fast"]}); ("S1", {["cat"; "sat"]})])].

(** The songs of the artist of [index_ex]. *)
Definition songs_ex : dict (gset string) :=
  [("S1", {["cat"; "sat"]}); ("S2", {["dog"; "ran"; "fast"]})].

(** The lines of a stop word file: each ends with a line feed. *)
Definition stop_fp_ex : list string :=
  [ "The" +:+ String (ascii_of_nat 10) "";
    " a " +:+ String (ascii_of_nat 10) "" ].

(** ** Vocabulary of the properties *)

(** The word set stored for a song of an artist, if any. *)
Definition lookup2 (data_dict : index_t) (singer song : string)
  : option (gset string) :=
  songs ← PyDict.get data_dict singer; PyDict.get songs song.

(** Every artist of the index has at least one song. *)
Definition songs_nonempty (data_dict : index_t) : Prop :=
  Forall (fun entry => entry.2 <> []) data_dict.

(** The keys of the index, and of each of its song maps, are pairwise
    different, as in every Python dictionary. *)
Definition wf_index (data_dict : index_t) : Prop :=
  PyDict.wf data_dict /\ Forall (fun entry => PyDict.wf entry.2) data_dict.

#[global] Instance wf_dec {V} (d : dict V) : Decision (PyDict.wf d).
Proof. unfold PyDict.wf. apply _. Defined.

#[global] Instance wf_index_dec (data_dict : index_t) :
  Decision (wf_index data_dict).
Proof. unfold wf_index. apply _. Defined.

#[global] Instance songs_nonempty_dec (data_dict : index_t) :
  Decision (songs_nonempty data_dict).
Proof. unfold songs_nonempty. apply _. Defined.

(** The indexes that a sequence of inserts builds from the empty one. *)
Inductive reachable : index_t -> Prop :=
| reachable_empty : reachable []
| reachable_insert data_dict singer song words :
    reachable data_dict ->
    reachable (update_dictionary data_dict singer song words).

(** The index after a sequence of calls of [update_dictionary], one for
    each (artist, song, word set) of [inserts], on [data_dict]. *)
Definition insert_all (data_dict : index_t)
    (inserts : list (string * string * gset string)) : index_t :=
  fold_left
    (fun data_dict '(singer, song, words) =>
       update_dictionary data_dict singer song words)
    inserts data_dict.

(** Two indexes hold the same songs with the same word sets; the order
    of their entries may differ. *)
Definition same_content (data_dict data_dict' : index_t) : Prop :=
  forall singer song,
    lookup2 data_dict' singer song = lookup2 data_dict singer song.

(** [s1 <= s2] and [s1 < s2] on strings, by code points *)
Definition str_le (s1 s2 : string) : Prop := String.le s1 s2.

Definition str_lt (s1 s2 : string) : Prop := str_le s1 s2 /\ s1 <> s2.

(** Ascending by artist, then by song. *)
Definition pair_le (x y : string * string) : Prop :=
  str_lt x.1 y.1 \/ (x.1 = y.1 /\ str_le x.2 y.2).

Definition pair_lt (x y : string * string) : Prop :=
  str_lt x.1 y.1 \/ (x.1 = y.1 /\ str_lt x.2 y.2).

(** The pairs that the inner loop of [search_songs] appends for one
    artist, and the pairs that the two loops append in all. *)
Definition song_hits (singer : string) (songs : dict (gset string))
    (song_names : list string) (words : gset string)
  : list (string * string) :=
  flat_map
    (fun song_name =>
       match PyDict.get songs song_name with
       | Some word_set =>
           if bool_decide (words ⊆ word_set) then [(singer, song_name)]
           else []
       | None => []
       end)
    song_names.

Definition all_hits (data_dict : index_t) (words : gset string)
  : list (string * string) :=
  flat_map
    (fun entry => song_hits entry.1 entry.2 (PyDict.keys entry.2) words)
    data_dict.

(** Every (artist, song) pair of the index, in the order of the index. *)
Definition all_pairs (data_dict : index_t) : list (string * string) :=
  flat_map
    (fun entry => map (fun song_name => (entry.1, song_name))
                    (PyDict.keys entry.2))
    data_dict.

(** The fields of a tuple (artist, average word count, vocabulary size,
    number of songs) that the ranking is about: the second one and the
    fourth one. *)
Definition tuple_average (t : singer_tuple) : Q :=
  let '(_, average, _, _) := t in average.

Definition tuple_song_count (t : singer_tuple) : nat :=
  let '(_, _, _, song_count) := t in song_count.

(** [x] ranks at least as high as [y]: a larger average word count, or
    the same average word count and at least as many songs. *)
Definition rank_ge (x y : singer_tuple) : Prop :=
  (tuple_average y < tuple_average x)%Q
  \/ ((tuple_average x == tuple_average y)%Q
      /\ (tuple_song_count y <= tuple_song_count x)%nat).


(** * Properties *)

(** ** The example of the specification *)

Example split_ex :
  PyStr.split "  the cat   sat " = ["the"; "cat"; "sat"].
Proof. reflexivity. Qed.

Example strip_ex :
  PyStr.strip_chars PyStr.punctuation "(don't!)" = "don't".
Proof. reflexivity. Qed.

Example read_data_ex :
  read_data rows_ex stop_ex
  = Ok [("Art1", [("S1", {["cat"; "sat"]}); ("S2", {["dog"; "ran"; "fast"]})])].
Proof. vm_compute. reflexivity. Qed.

Example search_ex1 : search_songs index_ex {["cat"]} = Ok [("Art1", "S1")].
Proof. vm_compute. reflexivity. Qed.

Example search_ex2 : search_songs index_ex {["cat"; "dog"]} = Ok [].
Proof. vm_compute. reflexivity. Qed.

Example average_ex :
  calculate_average_word_count Qred index_ex = Ok [("Art1", 5 # 2)%Q].
Proof. vm_compute. reflexivity. Qed.

Example vocab_ex :
  (fun d => map (fun kv => (kv.1, size kv.2)) d) (find_singers_vocab index_ex)
  = [("Art1", 5)].
Proof. vm_compute. reflexivity. Qed.

Example main_ex :
  (average_words ← calculate_average_word_count Qred index_ex;
   singers_loop [] index_ex average_words (find_singers_vocab index_ex))
  = Ok [("Art1", (5 # 2)%Q, 5, 2)].
Proof. vm_compute. reflexivity. Qed.

Example display_ex :
  display_singers
    [("A", (3 # 2)%Q, 7, 2); ("B", (5 # 2)%Q, 5, 2); ("C", (5 # 2)%Q, 9, 4);
     ("D", (10 # 4)%Q, 1, 2)]
  = [Title; Header; Rule;
     SingerRow "C" (5 # 2)%Q 9 4; SingerRow "B" (5 # 2)%Q 5 2;
     SingerRow "D" (10 # 4)%Q 1 2; SingerRow "A" (3 # 2)%Q 7 2].
Proof. vm_compute. reflexivity. Qed.

(** ** Characters and strings *)

Module PyStrFacts.
Import PyStr.

Ltac each_char c := destruct c as [[] [] [] [] [] [] [] []]; vm_compute.

Lemma isalpha_char_class (c : ascii) :
  isalpha_char c = true ->
  isspace_char c = false /\ isdigit_char c = false
  /\ char_in c punctuation = false.
Proof. each_char c; intros H; try discriminate H; repeat split. Qed.

Lemma lower_char_idem (c : ascii) :
  lower_char (lower_char c) = lower_char c.
Proof. each_char c; reflexivity. Qed.

Lemma all_chars_impl (p q : ascii -> bool) (s : string) :
  (forall c, p c = true -> q c = true) ->
  all_chars p s = true -> all_chars q s = true.
Proof.
  intros Hpq. induction s as [|c s IH]; simpl; [done|].
  intros [Hc Hs]%andb_prop. rewrite (Hpq c Hc), (IH Hs). done.
Qed.

Lemma all_chars_In (p : ascii -> bool) (s : string) :
  all_chars p s = true <->
  (forall c, In c (list_ascii_of_string s) -> p c = true).
Proof.
  induction s as [|c s IH]; simpl.
  - split; [intros _ c []|done].
  - rewrite andb_true_iff, IH. split.
    + intros [Hc Hs] d [<-|Hd]; auto.
    + intros H. split; [apply H; by left|]. intros d Hd. apply H. by right.
Qed.

Lemma lower_is_lowered (s : string) : all_chars is_lowered (lower s) = true.
Proof.
  induction s as [|c s IH]; simpl; [done|].
  rewrite IH, andb_true_r. unfold is_lowered.
  rewrite lower_char_idem. apply Ascii.eqb_refl.
Qed.

Lemma lower_fixed (s : string) :
  all_chars is_lowered s = true -> lower s = s.
Proof.
  induction s as [|c s IH]; simpl; [done|].
  intros [Hc Hs]%andb_prop. apply Ascii.eqb_eq in Hc.
  by rewrite Hc, (IH Hs).
Qed.

Lemma lstrip_by_all (p q : ascii -> bool) (s : string) :
  all_chars p s = true -> all_chars p (lstrip_by q s) = true.
Proof.
  induction s as [|c s IH]; simpl; [done|].
  intros H. destruct (q c); [|exact H].
  apply andb_prop in H as [_ Hs]. by apply IH.
Qed.

Lemma rstrip_by_all (p q : ascii -> bool) (s : string) :
  all_chars p s = true -> all_chars p (rstrip_by q s) = true.
Proof.
  induction s as [|c s IH]; simpl; [done|].
  intros [Hc Hs]%andb_prop. specialize (IH Hs).
  destruct (rstrip_by q s) as [|d r].
  - destruct (q c); simpl; [done|]. by rewrite Hc.
  - change (all_chars p (String c (String d r))) with
      (p c && all_chars p (String d r)). by rewrite Hc, IH.
Qed.

Lemma strip_by_all (p q : ascii -> bool) (s : string) :
  all_chars p s = true -> all_chars p (strip_by q s) = true.
Proof. intros H. unfold strip_by. by apply rstrip_by_all, lstrip_by_all. Qed.

Lemma lstrip_by_none (q : ascii -> bool) (s : string) :
  all_chars (fun c => negb (q c)) s = true -> lstrip_by q s = s.
Proof.
  destruct s as [|c s]; simpl; [done|].
  intros [Hc _]%andb_prop. apply negb_true_iff in Hc. by rewrite Hc.
Qed.

Lemma rstrip_by_none (q : ascii -> bool) (s : string) :
  all_chars (fun c => negb (q c)) s = true -> rstrip_by q s = s.
Proof.
  induction s as [|c s IH]; simpl; [done|].
  intros [Hc Hs]%andb_prop. apply negb_true_iff in Hc.
  rewrite (IH Hs). destruct s; [by rewrite Hc|done].
Qed.

Lemma strip_by_none (q : ascii -> bool) (s : string) :
  all_chars (fun c => negb (q c)) s = true -> strip_by q s = s.
Proof.
  intros H. unfold strip_by. rewrite (lstrip_by_none _ _ H).
  by apply rstrip_by_none.
Qed.

Lemma isalpha_spec (s : string) :
  isalpha s = true <-> s <> "" /\ all_chars isalpha_char s = true.
Proof. destruct s; simpl; [|split; [done|tauto]]. split; [done|tauto]. Qed.

(** ** [split] after [join] *)

Lemma app_empty_r (s : string) : s +:+ "" = s.
Proof.
  induction s as [|c s IH]; [done|].
  change (String c s +:+ "") with (String c (s +:+ "")). by rewrite IH.
Qed.

Lemma split_spaces (sep s : string) :
  all_chars isspace_char sep = true -> split (sep +:+ s) = split s.
Proof.
  induction sep as [|c sep IH]; [done|].
  intros [Hc Hsep]%andb_prop. simpl. rewrite Hc. by apply IH.
Qed.

Lemma split_word (w s : string) :
  w <> "" ->
  all_chars (fun c => negb (isspace_char c)) w = true ->
  at_break s = true ->
  split (w +:+ s) = w :: split s.
Proof.
  intros Hne Hw Hs. induction w as [|c w IH]; [done|].
  apply andb_prop in Hw as [Hc Hw]. apply negb_true_iff in Hc.
  destruct w as [|d w].
  - change (String c "" +:+ s) with (String c s).
    simpl. rewrite Hc. destruct s as [|e s]; [done|].
    simpl in Hs. by rewrite Hs.
  - assert (Hd : isspace_char d = false).
    { apply andb_prop in Hw as [Hd _]. by apply negb_true_iff in Hd. }
    change (String c (String d w) +:+ s)
      with (String c (String d (w +:+ s))).
    change (split (String c (String d (w +:+ s)))) with
      (if isspace_char c then split (String d (w +:+ s))
       else if isspace_char d
            then String c EmptyString :: split (String d (w +:+ s))
            else match split (String d (w +:+ s)) with
                 | w' :: ws => String c w' :: ws
                 | [] => [String c EmptyString]
                 end).
    rewrite Hc, Hd.
    change (String d (w +:+ s)) with (String d w +:+ s).
    by rewrite IH.
Qed.

Lemma split_join (sep : string) (l : list string) :
  sep <> "" -> all_chars isspace_char sep = true ->
  Forall is_word l ->
  split (join sep l) = l.
Proof.
  intros Hne Hsep Hl. induction Hl as [|w l [Hw1 Hw2] Hl IH]; [done|].
  unfold join in *. destruct l as [|w' l].
  - simpl. rewrite <- (app_empty_r w) at 1.
    by rewrite split_word.
  - change (String.concat sep (w :: w' :: l))
      with (w +:+ sep +:+ String.concat sep (w' :: l)).
    rewrite split_word; [|done|done|].
    + by rewrite split_spaces, IH.
    + destruct sep as [|c sep]; [done|]. simpl in *.
      by apply andb_prop in Hsep as [-> _].
Qed.

End PyStrFacts.

(** ** Tokenizer and validator *)

Section Tokenizer.
Import PyStr PyStrFacts.
Variable stopwords : gset string.

Lemma validate_word_true (word : string) :
  validate_word word stopwords = true <->
  (word ∉ stopwords) /\ isalpha word = true.
Proof.
  unfold validate_word.
  destruct (bool_decide_reflect (word ∉ stopwords)) as [Hin|Hin];
    destruct (isalpha word); simpl; split; try done; tauto.
Qed.

Lemma process_loop (word_list : list string) (acc : gset string) :
  fold_left
    (fun processed_set word =>
       if validate_word word stopwords
       then processed_set ∪ {[word]}
       else processed_set)
    word_list acc
  = acc ∪ (list_to_set
             (List.filter (fun w => validate_word w stopwords) word_list)).
Proof.
  revert acc. induction word_list as [|w l IH]; intros acc; simpl.
  - by rewrite (right_id_L ∅ (∪)).
  - rewrite IH. destruct (validate_word w stopwords); simpl; [|done].
    by rewrite (assoc_L (∪)).
Qed.

Lemma process_lyrics_eq (lyrics : string) :
  process_lyrics lyrics stopwords
  = list_to_set (List.filter (fun w => validate_word w stopwords)
                   (map normalize (split lyrics))).
Proof.
  unfold process_lyrics. rewrite process_loop. apply (left_id_L ∅ (∪)).
Qed.

Lemma elem_of_process_lyrics (lyrics w : string) :
  w ∈ process_lyrics lyrics stopwords <->
  validate_word w stopwords = true
  /\ exists token, In token (split lyrics) /\ w = normalize token.
Proof.
  rewrite process_lyrics_eq, elem_of_list_to_set, list_elem_of_In.
  rewrite filter_In, in_map_iff. split.
  - intros [(t & <- & Ht) Hv]. eauto.
  - intros [Hv (t & Ht & ->)]. eauto.
Qed.

Lemma normalize_lowered (token : string) :
  all_chars is_lowered (normalize token) = true.
Proof.
  unfold normalize, strip_chars, strip.
  do 2 apply strip_by_all. apply lower_is_lowered.
Qed.

Lemma normalize_fixed (w : string) :
  all_chars is_lowered w = true -> isalpha w = true -> normalize w = w.
Proof.
  intros Hlow [_ Halpha]%isalpha_spec. unfold normalize, strip_chars, strip.
  rewrite (lower_fixed _ Hlow). rewrite (strip_by_none isspace_char).
  - apply strip_by_none. revert Halpha. apply all_chars_impl.
    intros c Hc. apply isalpha_char_class in Hc as (_ & _ & ->). done.
  - revert Halpha. apply all_chars_impl.
    intros c Hc. apply isalpha_char_class in Hc as (-> & _). done.
Qed.

Lemma isalpha_is_word (w : string) : isalpha w = true -> is_word w.
Proof.
  intros [Hne Halpha]%isalpha_spec. split; [done|].
  revert Halpha. apply all_chars_impl.
  intros c Hc. apply isalpha_char_class in Hc as (-> & _). done.
Qed.

Lemma processed_word (lyrics w : string) :
  w ∈ process_lyrics lyrics stopwords ->
  validate_word w stopwords = true /\ normalize w = w /\ is_word w.
Proof.
  intros [Hv (t & _ & ->)]%elem_of_process_lyrics.
  pose proof Hv as [_ Halpha]%validate_word_true.
  split; [done|]. split; [|by apply isalpha_is_word].
  apply normalize_fixed; [apply normalize_lowered|done].
Qed.

Lemma filter_all_true {A} (p : A -> bool) (l : list A) :
  Forall (fun x => p x = true) l -> List.filter p l = l.
Proof.
  induction 1 as [|x l Hx _ IH]; simpl; [done|]. by rewrite Hx, IH.
Qed.

Lemma map_all_fixed {A} (f : A -> A) (l : list A) :
  Forall (fun x => f x = x) l -> map f l = l.
Proof. induction 1 as [|x l Hx _ IH]; simpl; [done|]. by rewrite Hx, IH. Qed.

(** C3: [validate_word w S] is true exactly when [w] is non-empty, every
    character of [w] is alphabetic, and [w] is not in the stopword set
    [S]; an alphabetic character is no whitespace, digit or punctuation
    character. *)
Theorem validate_word_iff (w : string) :
  (validate_word w stopwords = true <->
   w <> ""
   /\ (forall c, In c (list_ascii_of_string w) -> isalpha_char c = true)
   /\ w ∉ stopwords)
  /\ (forall c, isalpha_char c = true ->
        isdigit_char c = false
        /\ char_in c punctuation = false
        /\ isspace_char c = false).
Proof.
  split.
  - rewrite validate_word_true, isalpha_spec, all_chars_In. tauto.
  - intros c Hc. apply isalpha_char_class in Hc. tauto.
Qed.

(** C6: tokenizing the text, joining the words of the resulting set (in
    whatever order the set lists them) with a whitespace separator and
    tokenizing that string again gives the same word set. *)
Theorem process_lyrics_idempotent (text sep : string) (l : list string) :
  sep <> "" -> all_chars isspace_char sep = true ->
  list_to_set l = process_lyrics text stopwords ->
  process_lyrics (join sep l) stopwords = process_lyrics text stopwords.
Proof.
  intros Hne Hsep Hl.
  assert (Hall : Forall (fun w => validate_word w stopwords = true
                                  /\ normalize w = w /\ is_word w) l).
  { apply Forall_forall. intros w Hw. apply (processed_word text).
    rewrite <- Hl. by apply elem_of_list_to_set. }
  rewrite process_lyrics_eq, split_join; [|done|done|].
  - rewrite map_all_fixed;
      [|eapply Forall_impl; [exact Hall|]; by intros ? (?&?&?)].
    rewrite filter_all_true; [done|].
    eapply Forall_impl; [exact Hall|]. by intros ? (?&?&?).
  - eapply Forall_impl; [exact Hall|]. by intros ? (?&?&?).
Qed.

End Tokenizer.

Lemma process_lyrics_idempotent_witness :
  process_lyrics (PyStr.join " " ["sat"; "cat"]) stop_ex
  = process_lyrics "The cat -- the CAT! -- sat." stop_ex.
Proof.
  apply (process_lyrics_idempotent stop_ex _ " " ["sat"; "cat"]).
  - discriminate.
  - reflexivity.
  - vm_compute. reflexivity.
Defined.

(** ** Dictionaries *)

Module PyDictFacts.
Import PyDict.

Section facts.
Context {V : Type}.
Implicit Types (d : dict V) (k : string) (v : V).

Lemma get_set_eq d k v : get (set d k v) k = Some v.
Proof.
  induction d as [|[k' v'] d IH]; simpl.
  - by case_decide.
  - destruct (decide (k' = k)) as [->|Hne]; simpl; by case_decide.
Qed.

Lemma get_set_ne d k k' v : k <> k' -> get (set d k v) k' = get d k'.
Proof.
  intros Hne. induction d as [|[k0 v0] d IH]; simpl.
  - by case_decide.
  - destruct (decide (k0 = k)) as [->|Hk]; simpl.
    + by case_decide.
    + by rewrite IH.
Qed.

Lemma get_None d k : get d k = None <-> ~ In k (keys d).
Proof.
  induction d as [|[k' v'] d IH]; simpl; [tauto|].
  destruct (decide (k' = k)) as [->|Hne].
  - split; [done|]. intros []. by left.
  - rewrite IH. tauto.
Qed.

Lemma get_Some_In d k v : get d k = Some v -> In (k, v) d.
Proof.
  induction d as [|[k' v'] d IH]; simpl; [done|].
  destruct (decide (k' = k)) as [->|Hne].
  - intros [= ->]. by left.
  - intros H. right. by apply IH.
Qed.

Lemma In_get_Some d k v : wf d -> In (k, v) d -> get d k = Some v.
Proof.
  unfold wf. induction d as [|[k' v'] d IH]; simpl; [done|].
  intros [Hk' Hd]%NoDup_cons [[= -> ->]|Hin].
  - by case_decide.
  - case_decide as Hk; [|by apply IH]. subst k'.
    exfalso. apply Hk', list_elem_of_In.
    change k with (fst (k, v)). by apply in_map.
Qed.

Lemma In_keys_get d k : In k (keys d) -> exists v, get d k = Some v.
Proof.
  intros Hin. destruct (get d k) as [v|] eqn:Hget; [eauto|].
  by apply get_None in Hget.
Qed.

Lemma keys_set d k v :
  keys (set d k v)
  = match get d k with Some _ => keys d | None => keys d ++ [k] end.
Proof.
  induction d as [|[k' v'] d IH]; simpl; [done|].
  destruct (decide (k' = k)) as [->|Hne]; simpl; [done|].
  rewrite IH. by destruct (get d k).
Qed.

Lemma wf_set d k v : wf d -> wf (set d k v).
Proof.
  unfold wf. rewrite keys_set. destruct (get d k) eqn:Hget; [done|].
  intros Hd. apply NoDup_app. split; [done|]. split.
  - intros x Hx ->%list_elem_of_singleton.
    apply get_None in Hget. by apply Hget, list_elem_of_In.
  - apply NoDup_singleton.
Qed.

Lemma set_not_nil d k v : set d k v <> [].
Proof. destruct d as [|[k' v'] d]; simpl; [done|]. by case_decide. Qed.
End facts.
End PyDictFacts.

(** ** Corpus index *)

Lemma NoDup_fst_unique {A B} (l : list (A * B)) (x : A) (y1 y2 : B) :
  NoDup (map fst l) -> In (x, y1) l -> In (x, y2) l -> y1 = y2.
Proof.
  induction l as [|[x' y'] l IH]; simpl; [done|].
  intros [Hnot Hnd]%NoDup_cons [Heq1|Hin1] [Heq2|Hin2].
  - congruence.
  - injection Heq1 as -> ->. destruct Hnot.
    apply list_elem_of_In, (in_map fst l (x, y2)), Hin2.
  - injection Heq2 as -> ->. destruct Hnot.
    apply list_elem_of_In, (in_map fst l (x, y1)), Hin1.
  - by apply IH.
Qed.

Section Builder.
Import PyDict PyDictFacts.
Implicit Types (data_dict : index_t) (singer song : string)
  (words : gset string).

Lemma set_Forall {V} (P : string * V -> Prop) (d : dict V) k v :
  Forall P d -> P (k, v) -> Forall P (set d k v).
Proof.
  intros Hd Hkv. induction Hd as [|[k' v'] d Hx Hd IH]; simpl.
  - by constructor.
  - case_decide as Hk; [subst k'|]; constructor; done.
Qed.

Lemma update_lookup_eq data_dict singer song words :
  lookup2 (update_dictionary data_dict singer song words) singer song
  = Some words.
Proof.
  unfold lookup2, update_dictionary.
  destruct (get data_dict singer) as [songs|];
    rewrite get_set_eq; simpl.
  - apply get_set_eq.
  - by case_decide.
Qed.

Lemma update_get_ne data_dict singer singer' song words :
  singer' <> singer ->
  get (update_dictionary data_dict singer song words) singer'
  = get data_dict singer'.
Proof.
  intros Hne. unfold update_dictionary.
  destruct (get data_dict singer); by rewrite get_set_ne.
Qed.

Lemma update_lookup_song_ne data_dict singer song song' words :
  song' <> song ->
  lookup2 (update_dictionary data_dict singer song words) singer song'
  = lookup2 data_dict singer song'.
Proof.
  intros Hne. unfold lookup2, update_dictionary.
  destruct (get data_dict singer) as [songs|] eqn:Hget;
    rewrite get_set_eq; simpl.
  - by rewrite get_set_ne.
  - by case_decide.
Qed.

Lemma update_songs_nonempty data_dict singer song words :
  songs_nonempty data_dict ->
  songs_nonempty (update_dictionary data_dict singer song words).
Proof.
  intros Hd. unfold update_dictionary.
  destruct (get data_dict singer) as [songs|]; apply set_Forall; try done.
  apply set_not_nil.
Qed.

Lemma update_wf data_dict singer song words :
  wf_index data_dict ->
  wf_index (update_dictionary data_dict singer song words).
Proof.
  intros [Hd Hsongs]. unfold update_dictionary.
  destruct (get data_dict singer) as [songs|] eqn:Hget.
  - split; [by apply wf_set|]. apply set_Forall; [done|]. simpl.
    apply wf_set. apply get_Some_In in Hget.
    rewrite Forall_forall in Hsongs. by apply (Hsongs (singer, songs)),
      list_elem_of_In.
  - split; [by apply wf_set|]. apply set_Forall; [done|]. simpl.
    apply NoDup_singleton.
Qed.

Lemma reachable_songs_nonempty data_dict :
  reachable data_dict -> songs_nonempty data_dict.
Proof.
  induction 1; [constructor|by apply update_songs_nonempty].
Qed.

Lemma reachable_wf data_dict : reachable data_dict -> wf_index data_dict.
Proof.
  induction 1; [|by apply update_wf].
  split; [apply NoDup_nil_2|constructor].
Qed.

Lemma read_line_Ok data_dict line stopwords data_dict' :
  read_line data_dict line stopwords = Ok data_dict' ->
  exists singer song lyrics,
    line !! 0 = Some singer /\ line !! 1 = Some song
    /\ line !! 2 = Some lyrics
    /\ data_dict'
       = update_dictionary data_dict singer song
           (process_lyrics (PyStr.lower lyrics) stopwords).
Proof.
  unfold read_line, index.
  destruct (line !! 2) as [lyrics|]; [|done].
  destruct (line !! 0) as [singer|]; [|done].
  destruct (line !! 1) as [song|]; [|done].
  intros [= <-]. by exists singer, song, lyrics.
Qed.

Lemma read_lines_reachable data_dict reader stopwords data_dict' :
  reachable data_dict ->
  read_lines data_dict reader stopwords = Ok data_dict' ->
  reachable data_dict'.
Proof.
  revert data_dict. induction reader as [|line reader IH];
    intros data_dict Hd; simpl.
  - by intros [= <-].
  - destruct (read_line data_dict line stopwords) as [d1|e] eqn:Hline;
      [|done].
    apply read_line_Ok in Hline as (singer & song & lyrics & _ & _ & _ & ->).
    apply IH. by constructor.
Qed.

Lemma read_data_reachable reader stopwords data_dict :
  read_data reader stopwords = Ok data_dict -> reachable data_dict.
Proof.
  destruct reader as [|hdr reader]; [done|].
  apply read_lines_reachable. constructor.
Qed.

Lemma insert_all_reachable data_dict inserts :
  reachable data_dict -> reachable (insert_all data_dict inserts).
Proof.
  revert data_dict. induction inserts as [|[[singer song] words] inserts IH];
    intros data_dict Hd; [done|].
  apply IH. by constructor.
Qed.

Lemma update_lookup2 data_dict singer song words singer' song' :
  lookup2 (update_dictionary data_dict singer song words) singer' song'
  = if decide ((singer, song) = (singer', song')) then Some words
    else lookup2 data_dict singer' song'.
Proof.
  case_decide as Heq.
  - injection Heq as <- <-. apply update_lookup_eq.
  - destruct (decide (singer' = singer)) as [->|Hsinger].
    + apply update_lookup_song_ne. congruence.
    + unfold lookup2. by rewrite update_get_ne.
Qed.

(** With one insert for each (artist, song), the index holds what was
    inserted, on top of what it held. *)
Lemma insert_all_lookup2 data_dict inserts singer song :
  NoDup (map fst inserts) ->
  lookup2 (insert_all data_dict inserts) singer song
  = match list_find (fun ins => ins.1 = (singer, song)) inserts with
    | Some (_, ins) => Some ins.2
    | None => lookup2 data_dict singer song
    end.
Proof.
  revert data_dict. induction inserts as [|[[singer' song'] words] inserts IH];
    intros data_dict Hnd; [done|].
  change (map fst (((singer', song'), words) :: inserts))
    with ((singer', song') :: map fst inserts) in Hnd.
  apply NoDup_cons in Hnd as [Hnot Hnd].
  change (insert_all data_dict (((singer', song'), words) :: inserts))
    with (insert_all (update_dictionary data_dict singer' song' words)
            inserts).
  rewrite IH by done. rewrite update_lookup2. simpl.
  case_decide as Heq; simpl.
  - destruct (list_find _ inserts) as [[i ins]|] eqn:Hfind; [|done].
    apply list_find_Some in Hfind as (Hi & Hkey & _).
    destruct Hnot. rewrite Heq, <- Hkey.
    apply list_elem_of_fmap_2. by eapply list_elem_of_lookup_2.
  - by destruct (list_find _ inserts) as [[i ins]|].
Qed.

Lemma insert_all_In data_dict inserts singer song words :
  NoDup (map fst inserts) ->
  In (singer, song, words) inserts ->
  lookup2 (insert_all data_dict inserts) singer song = Some words.
Proof.
  intros Hnd Hin. rewrite insert_all_lookup2 by done.
  destruct (list_find _ inserts) as [[i ins]|] eqn:Hfind.
  - apply list_find_Some in Hfind as (Hi & Hkey & _).
    f_equal. apply list_elem_of_lookup_2, list_elem_of_In in Hi.
    destruct ins as [key words']. simpl in *. subst key.
    by apply (NoDup_fst_unique inserts (singer, song)).
  - apply list_find_None in Hfind. rewrite Forall_forall in Hfind.
    destruct (Hfind (singer, song, words)); [|done].
    by apply list_elem_of_In.
Qed.

Lemma insert_all_not_In data_dict inserts singer song :
  ~ In (singer, song) (map fst inserts) ->
  lookup2 (insert_all data_dict inserts) singer song
  = lookup2 data_dict singer song.
Proof.
  revert data_dict. induction inserts as [|[[singer' song'] words] inserts IH];
    intros data_dict Hnot; [done|].
  change (insert_all data_dict (((singer', song'), words) :: inserts))
    with (insert_all (update_dictionary data_dict singer' song' words)
            inserts).
  rewrite IH by (intros Hin; apply Hnot; by right).
  rewrite update_lookup2. case_decide as Heq; [|done].
  destruct Hnot. left. done.
Qed.

(** The order of inserts for different songs does not change what the
    index holds. *)
Lemma insert_all_perm data_dict inserts inserts' singer song :
  NoDup (map fst inserts) -> inserts' ≡ₚ inserts ->
  lookup2 (insert_all data_dict inserts') singer song
  = lookup2 (insert_all data_dict inserts) singer song.
Proof.
  intros Hnd Hperm.
  assert (Hnd' : NoDup (map fst inserts')).
  { by rewrite (fmap_Permutation fst _ _ Hperm). }
  destruct (decide ((singer, song) ∈ map fst inserts)) as [Hin|Hnot].
  - apply list_elem_of_In, in_map_iff in Hin as ([key words] & Hkey & Hin).
    simpl in Hkey. subst key.
    rewrite (insert_all_In _ inserts _ _ words) by done.
    apply insert_all_In; [done|].
    by rewrite <- list_elem_of_In, Hperm, list_elem_of_In.
  - rewrite (insert_all_not_In _ inserts)
      by (by rewrite <- list_elem_of_In).
    apply insert_all_not_In.
    rewrite <- list_elem_of_In.
    by rewrite (fmap_Permutation fst _ _ Hperm).
Qed.
End Builder.

Section BuilderClaims.
Import PyDict PyDictFacts.
Implicit Types (data_dict : index_t) (singer song : string)
  (words : gset string).

(** C10: after inserting [(singer, song, words)] the index maps [singer]
    and [song] to exactly [words]; every other artist has the song map it
    had; and every other song of [singer] has the word set it had. *)
Theorem update_dictionary_frame data_dict singer song words singer' song' :
  singer' <> singer -> song' <> song ->
  let data_dict' := update_dictionary data_dict singer song words in
  lookup2 data_dict' singer song = Some words
  /\ get data_dict' singer' = get data_dict singer'
  /\ lookup2 data_dict' singer song' = lookup2 data_dict singer song'.
Proof.
  intros Hsinger Hsong. simpl. split; [apply update_lookup_eq|]. split.
  - by apply update_get_ne.
  - by apply update_lookup_song_ne.
Qed.

(** C7: when the index already has a word set [old] for the artist and
    song of an inserted row, the insert stores the word set tokenized
    from the row's lyrics in its place; the stored set is the union of
    the old and the new one only when the old one adds nothing to it.
    The same holds for [update_dictionary] with any word set. *)
Theorem insert_replaces_word_set data_dict singer song lyrics
    (rest : list string) (stopwords old : gset string) :
  lookup2 data_dict singer song = Some old ->
  let new := process_lyrics (PyStr.lower lyrics) stopwords in
  (exists data_dict',
      read_line data_dict (singer :: song :: lyrics :: rest) stopwords
      = Ok data_dict'
      /\ lookup2 data_dict' singer song = Some new
      /\ (lookup2 data_dict' singer song = Some (old ∪ new) -> old ⊆ new))
  /\ (forall words,
        lookup2 (update_dictionary data_dict singer song words) singer song
        = Some words).
Proof.
  intros Hold new. split; [|intros words; apply update_lookup_eq].
  exists (update_dictionary data_dict singer song new).
  split; [done|]. rewrite update_lookup_eq. split; [done|].
  intros [= Heq]. rewrite Heq. apply union_subseteq_l.
Qed.

Lemma read_line_short data_dict line stopwords :
  length line < 3 ->
  read_line data_dict line stopwords = Raise IndexError.
Proof.
  intros Hlen. unfold read_line, index.
  rewrite (proj2 (lookup_ge_None line 2)); [done|lia].
Qed.

Lemma read_line_Raise data_dict line stopwords e :
  read_line data_dict line stopwords = Raise e -> e = IndexError.
Proof.
  unfold read_line, index.
  destruct (line !! 2); simpl; [|by intros [= <-]].
  destruct (line !! 0); simpl; [|by intros [= <-]].
  destruct (line !! 1); simpl; [done|by intros [= <-]].
Qed.

Lemma read_lines_short data_dict reader stopwords :
  Exists (fun line => length line < 3) reader ->
  read_lines data_dict reader stopwords = Raise IndexError.
Proof.
  intros Hex. revert data_dict.
  induction reader as [|line reader IH]; intros data_dict.
  - by apply Exists_nil in Hex.
  - simpl. destruct (read_line data_dict line stopwords) as [d1|e] eqn:Hline.
    + simpl. apply IH. apply Exists_cons in Hex as [Hshort|Hex]; [|done].
      by rewrite read_line_short in Hline.
    + simpl. by apply read_line_Raise in Hline as ->.
Qed.

(** C2, amended: when a data row (a row after the header) has fewer
    than three fields, [read_data] raises [IndexError] and returns no
    index, whatever the other rows are. *)
Theorem read_data_short_row (header : list string)
    (reader : list (list string)) (stopwords : gset string) :
  Exists (fun line => length line < 3) reader ->
  read_data (header :: reader) stopwords = Raise IndexError.
Proof. intros Hex. simpl. by apply read_lines_short. Qed.

End BuilderClaims.

Lemma update_dictionary_frame_witness :
  let d := update_dictionary index_ex "Art1" "S1" {["bird"]} in
  lookup2 d "Art1" "S1" = Some {["bird"]}
  /\ PyDict.get d "Art2" = PyDict.get index_ex "Art2"
  /\ lookup2 d "Art1" "S2" = lookup2 index_ex "Art1" "S2".
Proof.
  apply (update_dictionary_frame index_ex "Art1" "S1" {["bird"]} "Art2" "S2");
    discriminate.
Defined.

Lemma insert_replaces_word_set_witness :
  exists data_dict',
    read_line index_ex ["Art1"; "S1"; "A bird sang"] stop_ex = Ok data_dict'
    /\ lookup2 data_dict' "Art1" "S1" = Some {["bird"; "sang"]}.
Proof.
  destruct (insert_replaces_word_set index_ex "Art1" "S1" "A bird sang" []
              stop_ex {["cat"; "sat"]}) as [(d & Hd & Hnew & _) _].
  - vm_compute. reflexivity.
  - exists d. split; [exact Hd|]. rewrite Hnew. vm_compute. reflexivity.
Defined.

Lemma read_data_short_row_witness :
  read_data [ ["artist"; "song"; "text"];
              ["Art1"; "S1"; "the cat sat"];
              ["Art1"; "S2"] ] stop_ex
  = Raise IndexError.
Proof.
  apply read_data_short_row. apply Exists_cons_tl, Exists_cons_hd.
  simpl. lia.
Defined.

(** C2 as stated fails: a data row with four fields is read like a row
    with three, its fourth field ignored. *)
Lemma read_data_long_row_accepted :
  ~ (forall (reader : list (list string)) (stopwords : gset string),
        Exists (fun line => length line <> 3) reader ->
        is_ok (read_data reader stopwords) = false).
Proof.
  intros H.
  specialize (H [ ["artist"; "song"; "text"];
                  ["Art1"; "S1"; "the cat sat"; "1999"] ] stop_ex).
  assert (Hok : is_ok (read_data [ ["artist"; "song"; "text"];
                  ["Art1"; "S1"; "the cat sat"; "1999"] ] stop_ex) = true)
    by (vm_compute; reflexivity).
  rewrite H in Hok; [discriminate|].
  apply Exists_cons_tl, Exists_cons_hd. simpl. lia.
Qed.

(** ** Statistics *)

Section StatisticsClaims.
Import PyDict PyDictFacts.
Variable round_double : Q -> Q.

Lemma song_word_total_sum (songs : dict (gset string)) :
  song_word_total songs = sum_list (map size (values songs)).
Proof.
  unfold song_word_total.
  assert (Hgen : forall (l : list (gset string)) n,
             fold_left (fun t ws => t + size ws) l n
             = n + sum_list (map size l)).
  { induction l as [|ws l IH]; intros n; simpl; [lia|]. rewrite IH. lia. }
  by rewrite Hgen.
Qed.

Lemma truediv_songs (songs : dict (gset string)) :
  songs <> [] ->
  truediv round_double (song_word_total songs) (length (keys songs))
  = Ok (average_of round_double songs).
Proof.
  intros Hne. unfold average_of, keys. rewrite length_map.
  rewrite song_word_total_sum. by destruct songs.
Qed.

Lemma average_loop_spec (average_dict : dict Q) (items : index_t) :
  wf items -> songs_nonempty items ->
  exists result_dict,
    average_loop round_double average_dict items = Ok result_dict
    /\ forall singer,
        get result_dict singer
        = match get items singer with
          | Some songs => Some (average_of round_double songs)
          | None => get average_dict singer
          end.
Proof.
  unfold wf. revert average_dict.
  induction items as [|[singer songs] items IH];
    intros average_dict Hwf Hne; simpl.
  - by exists average_dict.
  - apply NoDup_cons in Hwf as [Hsinger Hwf].
    apply Forall_cons in Hne as [Hsongs Hne]. simpl in Hsongs.
    rewrite truediv_songs by done. simpl.
    destruct (IH (set average_dict singer (average_of round_double songs)) Hwf Hne)
      as (result_dict & Hloop & Hget).
    exists result_dict. split; [done|]. intros singer'. rewrite Hget.
    case_decide as Heq.
    + subst singer'. rewrite (proj2 (get_None items singer)).
      * apply get_set_eq.
      * by rewrite <- list_elem_of_In.
    + destruct (get items singer'); [done|]. by apply get_set_ne.
Qed.

Lemma average_loop_ok (average_dict : dict Q) (items : index_t) :
  songs_nonempty items ->
  exists result_dict,
    average_loop round_double average_dict items = Ok result_dict.
Proof.
  revert average_dict.
  induction items as [|[singer songs] items IH];
    intros average_dict Hne; simpl; [by eexists|].
  apply Forall_cons in Hne as [Hsongs Hne]. simpl in Hsongs.
  rewrite truediv_songs by done. simpl. by apply IH.
Qed.

(** C4: in an index where every artist has a song, the average computed
    for an artist is the (rounded) quotient of the sum of the sizes of
    the artist's word sets by the number of the artist's songs. *)
Theorem average_word_count_correct (data_dict : index_t)
    (singer : string) (songs : dict (gset string)) :
  wf data_dict -> songs_nonempty data_dict ->
  get data_dict singer = Some songs ->
  let word_total := sum_list (map size (values songs)) in
  let song_total := length songs in
  exists average_dict,
    calculate_average_word_count round_double data_dict = Ok average_dict
    /\ get average_dict singer
       = Some (round_double (Z.of_nat word_total # Pos.of_nat song_total))
    /\ (Z.of_nat word_total # Pos.of_nat song_total
        == inject_Z (Z.of_nat word_total) / inject_Z (Z.of_nat song_total))%Q
    /\ 0 < song_total.
Proof.
  intros Hwf Hne Hget word_total song_total.
  destruct (average_loop_spec [] data_dict Hwf Hne)
    as (average_dict & Hloop & Hspec).
  exists average_dict. split; [exact Hloop|].
  assert (Hpos : 0 < song_total).
  { apply get_Some_In in Hget. unfold songs_nonempty in Hne.
    rewrite Forall_forall in Hne.
    specialize (Hne (singer, songs) (proj2 (list_elem_of_In _ _) Hget)).
    subst song_total. destruct songs; simpl in *; [done|lia]. }
  split; [by rewrite Hspec, Hget|]. split; [|done].
  rewrite Qmake_Qdiv. unfold inject_Z.
  replace (Z.pos (Pos.of_nat song_total)) with (Z.of_nat song_total);
    [reflexivity|].
  destruct song_total as [|n]; [lia|].
  by rewrite <- Pos.of_nat_succ, Zpos_P_of_succ_nat, Nat2Z.inj_succ.
Qed.

(** C5: an index that a sequence of inserts builds from the empty index,
    or that [read_data] returns, has at least one song for each of its
    artists, and [calculate_average_word_count] returns on it: no
    division by zero is raised. *)
Theorem index_songs_nonempty (data_dict : index_t) :
  reachable data_dict
  \/ (exists reader stopwords, read_data reader stopwords = Ok data_dict) ->
  songs_nonempty data_dict
  /\ exists average_dict,
      calculate_average_word_count round_double data_dict = Ok average_dict.
Proof.
  intros Hbuilt.
  assert (Hreach : reachable data_dict).
  { destruct Hbuilt as [H|(reader & stopwords & H)]; [done|].
    by apply read_data_reachable in H. }
  apply reachable_songs_nonempty in Hreach.
  split; [done|]. by apply average_loop_ok.
Qed.

End StatisticsClaims.

Lemma average_word_count_correct_witness :
  exists average_dict,
    calculate_average_word_count Qred index_ex = Ok average_dict
    /\ PyDict.get average_dict "Art1" = Some (5 # 2)%Q.
Proof.
  destruct (average_word_count_correct Qred index_ex "Art1"
              [("S1", {["cat"; "sat"]}); ("S2", {["dog"; "ran"; "fast"]})])
    as (average_dict & Hcalc & Hget & _).
  - apply (bool_decide_unpack _). vm_compute. exact I.
  - apply (bool_decide_unpack _). vm_compute. exact I.
  - reflexivity.
  - exists average_dict. split; [exact Hcalc|]. rewrite Hget.
    vm_compute. reflexivity.
Defined.

Lemma index_songs_nonempty_witness :
  songs_nonempty index_ex
  /\ exists average_dict,
      calculate_average_word_count Qred index_ex = Ok average_dict.
Proof.
  apply (index_songs_nonempty Qred index_ex).
  right. exists rows_ex, stop_ex. vm_compute. reflexivity.
Defined.

(** ** Sorting *)

Section SortingFacts.
Context {A K : Type} (key : A -> K) (lt : K -> K -> bool).

Lemma insert_sorted_perm (x : A) (l : list A) :
  insert_sorted key lt x l ≡ₚ x :: l.
Proof.
  induction l as [|y l IH]; simpl; [done|].
  destruct (lt (key y) (key x)); [|done].
  rewrite IH. apply Permutation_swap.
Qed.

Lemma sort_stable_perm (l : list A) : sort_stable key lt l ≡ₚ l.
Proof.
  induction l as [|x l IH]; simpl; [done|].
  rewrite insert_sorted_perm. by rewrite IH.
Qed.

(** [le x y]: the key of [y] is not below the key of [x]. *)
Context (le : relation A).
Hypothesis lt_false_le : forall x y, lt (key y) (key x) = false <-> le x y.
Hypothesis le_trans : Transitive le.
Hypothesis le_total : Total le.

Lemma insert_sorted_sorted (x : A) (l : list A) :
  StronglySorted le l -> StronglySorted le (insert_sorted key lt x l).
Proof.
  induction 1 as [|y l Hl IH Hy]; simpl.
  - repeat constructor.
  - destruct (lt (key y) (key x)) eqn:Hyx.
    + constructor; [done|].
      rewrite Forall_forall. intros z Hz.
      apply (elem_of_Permutation_proper _ _ _ (insert_sorted_perm x l)) in Hz.
      apply elem_of_cons in Hz as [->|Hz].
      * destruct (le_total y x) as [Hle|Hle]; [done|].
        apply lt_false_le in Hle. congruence.
      * rewrite Forall_forall in Hy. by apply Hy.
    + apply lt_false_le in Hyx.
      constructor; [by constructor|]. constructor; [done|].
      eapply Forall_impl; [exact Hy|]. intros z Hz. by etrans.
Qed.

Lemma sort_stable_sorted (l : list A) :
  StronglySorted le (sort_stable key lt l).
Proof.
  induction l as [|x l IH]; simpl; [constructor|].
  by apply insert_sorted_sorted.
Qed.



End SortingFacts.

(** ** Order on strings and on pairs of strings *)

Section StringOrder.

Lemma str_ltb_false (s1 s2 : string) :
  PyStr.lt s1 s2 = false <-> str_le s2 s1.
Proof.
  unfold PyStr.lt, String.ltb, str_le, String.le, String.leb.
  rewrite (String.compare_antisym s1 s2).
  destruct (String.compare s2 s1); simpl; naive_solver.
Qed.

Lemma str_ltb_true (s1 s2 : string) :
  PyStr.lt s1 s2 = true <-> str_lt s1 s2.
Proof.
  unfold str_lt. split.
  - intros Hlt. destruct (total String.le s1 s2) as [Hle|Hle].
    + split; [done|]. intros ->.
      assert (PyStr.lt s2 s2 = false) by (by apply str_ltb_false).
      congruence.
    + apply str_ltb_false in Hle. congruence.
  - intros [Hle Hne]. destruct (PyStr.lt s1 s2) eqn:Hlt; [done|].
    apply str_ltb_false in Hlt. destruct Hne.
    by apply (anti_symm String.le).
Qed.

Lemma str_eqb_true (s1 s2 : string) : PyStr.eq s1 s2 = true <-> s1 = s2.
Proof. apply String.eqb_eq. Qed.

Lemma str_le_cases (s1 s2 : string) : str_lt s1 s2 \/ s1 = s2 \/ str_lt s2 s1.
Proof.
  destruct (decide (s1 = s2)) as [->|Hne]; [tauto|].
  destruct (total String.le s1 s2); [left|right; right]; split; done.
Qed.

Lemma str_lt_le_trans (s1 s2 s3 : string) :
  str_lt s1 s2 -> str_le s2 s3 -> str_lt s1 s3.
Proof.
  intros [H12 Hne] H23. split; [by etrans|]. intros ->.
  apply Hne. by apply (anti_symm String.le).
Qed.

Lemma str_pair_lt_false (x y : string * string) :
  str_pair_lt y x = false <-> pair_le x y.
Proof.
  destruct x as [a1 s1], y as [a2 s2].
  unfold str_pair_lt, tuple_lt, pair_le. simpl.
  destruct (PyStr.eq a2 a1) eqn:Heq.
  - apply str_eqb_true in Heq as ->. rewrite str_ltb_false.
    split; [tauto|]. intros [[_ Hne]|[_ Hle]]; done.
  - assert (Hne : a2 <> a1).
    { intros Hq%str_eqb_true. congruence. }
    rewrite str_ltb_false. split.
    + intros Hle. left. split; done.
    + intros [[Hle _]|[-> _]]; done.
Qed.

#[global] Instance pair_le_trans : Transitive pair_le.
Proof.
  intros [a1 s1] [a2 s2] [a3 s3]. unfold pair_le. simpl.
  intros [H12|[-> H12]] [H23|[-> H23]].
  - left. apply (str_lt_le_trans _ a2); [done|]. by destruct H23.
  - by left.
  - by left.
  - right. split; [done|]. unfold str_le in *. by etrans.
Qed.

#[global] Instance pair_le_total : Total pair_le.
Proof.
  intros [a1 s1] [a2 s2]. unfold pair_le. simpl.
  destruct (str_le_cases a1 a2) as [H|[->|H]]; [tauto| |tauto].
  destruct (total String.le s1 s2); [left|right]; right; done.
Qed.

#[global] Instance pair_le_antisymm : AntiSymm (=) pair_le.
Proof.
  intros [a1 s1] [a2 s2]. unfold pair_le. simpl.
  intros [[H12 Hne]|[-> H12]] [[H21 Hne']|[Heq H21]].
  - destruct Hne. by apply (anti_symm String.le).
  - by destruct Hne.
  - by destruct Hne'.
  - f_equal. by apply (anti_symm String.le).
Qed.

Lemma pair_le_ne_lt (x y : string * string) :
  pair_le x y -> x <> y -> pair_lt x y.
Proof.
  destruct x as [a1 s1], y as [a2 s2]. unfold pair_le, pair_lt. simpl.
  intros [H|[-> H]] Hne; [by left|]. right. split; [done|].
  split; [done|]. intros ->. done.
Qed.

Lemma pair_lt_le (x y : string * string) : pair_lt x y -> pair_le x y.
Proof.
  unfold pair_le, pair_lt. intros [H|[Heq [H _]]]; [by left|by right].
Qed.

Lemma sorted_pairs_sorted (l : list (string * string)) :
  StronglySorted pair_le (sorted l itemgetter_0_1 str_pair_lt false).
Proof.
  unfold sorted. apply sort_stable_sorted; try apply _.
  intros [a1 s1] [a2 s2]. apply str_pair_lt_false.
Qed.

Lemma sorted_pairs_perm (l : list (string * string)) :
  sorted l itemgetter_0_1 str_pair_lt false ≡ₚ l.
Proof. apply sort_stable_perm. Qed.

Lemma StronglySorted_strict (l : list (string * string)) :
  NoDup l -> StronglySorted pair_le l -> StronglySorted pair_lt l.
Proof.
  intros Hnd Hs. induction Hs as [|x l Hl IH Hx]; [constructor|].
  apply NoDup_cons in Hnd as [Hx' Hnd].
  constructor; [by apply IH|].
  rewrite Forall_forall in Hx |- *. intros y Hy.
  apply pair_le_ne_lt; [by apply Hx|]. intros ->. done.
Qed.

End StringOrder.

(** ** Search *)

Section SearchFacts.
Import PyDict PyDictFacts.
Implicit Types (data_dict : index_t) (songs : dict (gset string))
  (words : gset string).

Lemma search_songs_of_spec match_list singer songs song_names words :
  (forall song_name, In song_name song_names -> In song_name (keys songs)) ->
  search_songs_of match_list singer songs song_names words
  = Ok (match_list ++ song_hits singer songs song_names words).
Proof.
  revert match_list.
  induction song_names as [|song_name song_names IH];
    intros match_list Hkeys; simpl.
  - by rewrite app_nil_r.
  - destruct (In_keys_get songs song_name) as [word_set Hget];
      [apply Hkeys; by left|].
    unfold getitem. rewrite Hget. simpl.
    rewrite IH by (intros s Hs; apply Hkeys; by right).
    destruct (bool_decide (words ⊆ word_set)); [|done].
    by rewrite <- app_assoc.
Qed.

Lemma search_loop_spec match_list data_dict words :
  search_loop match_list data_dict words
  = Ok (match_list ++ all_hits data_dict words).
Proof.
  revert match_list.
  induction data_dict as [|[singer songs] data_dict IH];
    intros match_list; simpl.
  - by rewrite app_nil_r.
  - rewrite search_songs_of_spec by done. simpl.
    rewrite IH. by rewrite <- app_assoc.
Qed.

Lemma search_songs_spec data_dict words :
  search_songs data_dict words
  = Ok (sorted (all_hits data_dict words) itemgetter_0_1 str_pair_lt false).
Proof. unfold search_songs. by rewrite search_loop_spec. Qed.

Lemma In_song_hits singer songs song_names words a s :
  In (a, s) (song_hits singer songs song_names words) <->
  a = singer /\ In s song_names
  /\ exists word_set, get songs s = Some word_set /\ words ⊆ word_set.
Proof.
  unfold song_hits. rewrite in_flat_map. split.
  - intros (song_name & Hin & Hhit).
    destruct (get songs song_name) as [word_set|] eqn:Hget; [|done].
    destruct (bool_decide_reflect (words ⊆ word_set)) as [Hsub|]; [|done].
    destruct Hhit as [[= <- <-]|[]]. eauto.
  - intros (-> & Hin & word_set & Hget & Hsub).
    exists s. split; [done|]. rewrite Hget.
    rewrite bool_decide_eq_true_2 by done. by left.
Qed.

Lemma In_all_hits_entry data_dict words a s :
  In (a, s) (all_hits data_dict words) <->
  exists songs word_set,
    In (a, songs) data_dict /\ get songs s = Some word_set
    /\ words ⊆ word_set.
Proof.
  unfold all_hits. rewrite in_flat_map. split.
  - intros ([singer songs] & Hentry & Hhit). simpl in Hhit.
    apply In_song_hits in Hhit as (-> & _ & word_set & Hget & Hsub).
    eauto.
  - intros (songs & word_set & Hentry & Hget & Hsub).
    exists (a, songs). split; [done|]. simpl. apply In_song_hits.
    split; [done|]. split; [|eauto].
    pose proof (get_Some_In _ _ _ Hget) as Hin.
    change s with (fst (s, word_set)). by apply in_map.
Qed.

Lemma In_all_hits data_dict words a s :
  wf data_dict ->
  In (a, s) (all_hits data_dict words) <->
  exists word_set, lookup2 data_dict a s = Some word_set /\ words ⊆ word_set.
Proof.
  intros Hwf. rewrite In_all_hits_entry. unfold lookup2. split.
  - intros (songs & word_set & Hentry & Hget & Hsub).
    exists word_set. by rewrite (In_get_Some _ _ _ Hwf Hentry).
  - intros (word_set & Hlook & Hsub).
    destruct (get data_dict a) as [songs|] eqn:Hget; [|done].
    simpl in Hlook. apply get_Some_In in Hget. eauto.
Qed.

Lemma NoDup_song_hits singer songs song_names words :
  NoDup song_names -> NoDup (song_hits singer songs song_names words).
Proof.
  induction 1 as [|song_name song_names Hnot Hnd IH].
  - apply NoDup_nil_2.
  - unfold song_hits. simpl. fold (song_hits singer songs song_names words).
    apply NoDup_app. split; [|split; [|done]].
    + destruct (get songs song_name) as [word_set|]; [|apply NoDup_nil_2].
      destruct (bool_decide _); [apply NoDup_singleton|apply NoDup_nil_2].
    + intros [a s] Hin1 Hin2%list_elem_of_In.
      apply In_song_hits in Hin2 as (_ & Hin2 & _).
      destruct (get songs song_name) as [word_set|];
        [|by apply elem_of_nil in Hin1].
      destruct (bool_decide _); [|by apply elem_of_nil in Hin1].
      apply list_elem_of_singleton in Hin1 as [= -> ->].
      by apply Hnot, list_elem_of_In.
Qed.

Lemma NoDup_all_hits data_dict words :
  wf_index data_dict -> NoDup (all_hits data_dict words).
Proof.
  intros [Hwf Hsongs]. unfold wf in Hwf.
  induction data_dict as [|[singer songs] data_dict IH].
  - apply NoDup_nil_2.
  - change (NoDup (singer :: keys data_dict)) in Hwf.
    apply NoDup_cons in Hwf as [Hnot Hwf].
    apply Forall_cons in Hsongs as [Hsongs Hrest]. simpl in Hsongs.
    change (all_hits ((singer, songs) :: data_dict) words)
      with (song_hits singer songs (keys songs) words
            ++ all_hits data_dict words).
    apply NoDup_app. split; [by apply NoDup_song_hits|].
    split; [|by apply IH].
    intros [a s] Hin1%list_elem_of_In Hin2%list_elem_of_In.
    apply In_song_hits in Hin1 as (-> & _).
    apply In_all_hits_entry in Hin2 as (songs' & word_set & Hentry & _).
    apply Hnot, list_elem_of_In.
    apply (in_map fst data_dict (singer, songs')), Hentry.
Qed.

Lemma all_hits_empty data_dict : all_hits data_dict ∅ = all_pairs data_dict.
Proof.
  unfold all_hits, all_pairs. apply flat_map_ext. intros [singer songs].
  simpl. assert (Hgen : forall song_names,
    (forall s, In s song_names -> In s (keys songs)) ->
    song_hits singer songs song_names ∅
    = map (fun song_name => (singer, song_name)) song_names).
  { induction song_names as [|s song_names IH]; intros Hkeys; [done|].
    simpl. destruct (In_keys_get songs s) as [word_set ->];
      [apply Hkeys; by left|].
    rewrite bool_decide_eq_true_2 by apply empty_subseteq.
    simpl. f_equal. apply IH. intros s' Hs'. apply Hkeys. by right. }
  by apply Hgen.
Qed.

End SearchFacts.

Section SearchClaims.
Import PyDict PyDictFacts.
Implicit Types (data_dict : index_t) (words stopwords : gset string).

Lemma search_songs_sorted data_dict words :
  exists match_list,
    search_songs data_dict words = Ok match_list
    /\ match_list ≡ₚ all_hits data_dict words
    /\ StronglySorted pair_le match_list.
Proof.
  eexists. split; [apply search_songs_spec|]. split.
  - apply sorted_pairs_perm.
  - apply sorted_pairs_sorted.
Qed.

Lemma search_songs_same_content data_dict data_dict' words :
  wf_index data_dict -> wf_index data_dict' ->
  same_content data_dict data_dict' ->
  search_songs data_dict' words = search_songs data_dict words.
Proof.
  intros Hwf Hwf' Hsame. rewrite !search_songs_spec. f_equal.
  apply (StronglySorted_unique pair_le); try apply sorted_pairs_sorted.
  rewrite !sorted_pairs_perm.
  apply NoDup_Permutation; try by apply NoDup_all_hits.
  intros [a s]. rewrite !list_elem_of_In.
  rewrite !In_all_hits by (by destruct Hwf, Hwf').
  by rewrite Hsame.
Qed.

(** C1: on an index with a non-empty query set of valid words,
    [search_songs] returns a list that holds exactly the pairs
    (artist, song) whose word set includes the query set, each once, in
    ascending order of artist and then of song; an index with the same
    content in another insertion order gives the same list. *)
Theorem search_songs_correct data_dict words stopwords :
  wf_index data_dict ->
  words <> ∅ ->
  validate_set words stopwords = true ->
  exists match_list,
    search_songs data_dict words = Ok match_list
    /\ (forall singer song,
          In (singer, song) match_list <->
          exists word_set,
            lookup2 data_dict singer song = Some word_set
            /\ words ⊆ word_set)
    /\ NoDup match_list
    /\ StronglySorted pair_lt match_list
    /\ (forall data_dict',
          wf_index data_dict' -> same_content data_dict data_dict' ->
          search_songs data_dict' words = Ok match_list)
    /\ (forall inserts inserts',
          data_dict = insert_all [] inserts ->
          NoDup (map fst inserts) -> inserts' ≡ₚ inserts ->
          search_songs (insert_all [] inserts') words = Ok match_list).
Proof.
  intros Hwf _ _.
  destruct (search_songs_sorted data_dict words)
    as (match_list & Hsearch & Hperm & Hsorted).
  assert (Hnd : NoDup match_list).
  { rewrite Hperm. by apply NoDup_all_hits. }
  exists match_list. split; [done|]. split; [|split; [done|split; [|split]]].
  - intros singer song. rewrite <- (In_all_hits _ _ _ _ (proj1 Hwf)).
    rewrite <- !list_elem_of_In. by rewrite Hperm.
  - by apply StronglySorted_strict.
  - intros data_dict' Hwf' Hsame. rewrite <- Hsearch.
    by apply search_songs_same_content.
  - intros inserts inserts' Hbuilt Hkeys Hins. rewrite <- Hsearch.
    apply search_songs_same_content; [done| |].
    + apply reachable_wf, insert_all_reachable. constructor.
    + intros singer song. subst data_dict. by apply insert_all_perm.
Qed.

(** C9: on the empty query set [search_songs] returns normally, and the
    list it returns is made of all the (artist, song) pairs of the index,
    in ascending order of artist and then of song. *)
Theorem search_songs_empty_query data_dict :
  exists match_list,
    search_songs data_dict ∅ = Ok match_list
    /\ match_list ≡ₚ all_pairs data_dict
    /\ StronglySorted pair_le match_list
    /\ (forall singer song,
          is_Some (lookup2 data_dict singer song) ->
          In (singer, song) match_list).
Proof.
  destruct (search_songs_sorted data_dict ∅)
    as (match_list & Hsearch & Hperm & Hsorted).
  exists match_list. split; [done|]. split; [|split; [done|]].
  - by rewrite Hperm, all_hits_empty.
  - intros singer song [word_set Hlook].
    rewrite <- list_elem_of_In, Hperm, list_elem_of_In.
    apply In_all_hits_entry. unfold lookup2 in Hlook.
    destruct (get data_dict singer) as [songs|] eqn:Hget; [|done].
    exists songs, word_set. split; [by apply get_Some_In|].
    split; [done|]. apply empty_subseteq.
Qed.

End SearchClaims.

Lemma search_songs_correct_witness :
  exists match_list,
    search_songs index_ex {["cat"]} = Ok match_list
    /\ NoDup match_list
    /\ StronglySorted pair_lt match_list
    /\ search_songs index_ex' {["cat"]} = Ok match_list.
Proof.
  destruct (search_songs_correct index_ex {["cat"]} stop_ex)
    as (match_list & Hsearch & _ & Hnd & Hsorted & Horder & _).
  - apply (bool_decide_unpack _). vm_compute. exact I.
  - vm_compute. discriminate.
  - vm_compute. reflexivity.
  - exists match_list.
    split; [exact Hsearch|]. split; [exact Hnd|]. split; [exact Hsorted|].
    apply Horder.
    + apply (bool_decide_unpack _). vm_compute. exact I.
    + intros singer song. unfold lookup2, index_ex, index_ex'. simpl.
      destruct (decide ("Art1" = singer)); simpl; [|done].
      destruct (decide ("S2" = song)) as [Heq|]; [|done].
      destruct (decide ("S1" = song)); [|done]. by subst song.
Defined.

(** ** Ranking *)

Section RankingClaims.

Lemma float_lt_iff (x y : Q) : float_lt x y = true <-> (x < y)%Q.
Proof.
  unfold float_lt. rewrite Qlt_alt. destruct (x ?= y)%Q; split; done.
Qed.

Lemma float_int_lt_iff (x y : Q * nat) :
  float_int_lt x y = true <->
  (x.1 < y.1)%Q \/ ((x.1 == y.1)%Q /\ (x.2 < y.2)%nat).
Proof.
  destruct x as [qx nx], y as [qy ny].
  unfold float_int_lt, tuple_lt, float_eq. simpl.
  destruct (Qeq_bool qx qy) eqn:Heq.
  - apply Qeq_bool_iff in Heq. rewrite Nat.ltb_lt. split.
    + intros H. by right.
    + intros [H|[_ H]]; [|done]. rewrite Heq in H.
      by apply Qlt_irrefl in H.
  - rewrite float_lt_iff. split; [by left|].
    intros [H|[H _]]; [done|]. apply Qeq_bool_iff in H. congruence.
Qed.

Lemma float_int_lt_false (x y : singer_tuple) :
  float_int_lt (itemgetter_1_3 x) (itemgetter_1_3 y) = false <->
  rank_ge x y.
Proof.
  rewrite <- not_true_iff_false, float_int_lt_iff. unfold rank_ge.
  destruct x as [[[sx qx] vx] nx], y as [[[sy qy] vy] ny].
  simpl. split.
  - intros Hnot. destruct (Qlt_le_dec qy qx) as [Hlt|Hle]; [by left|].
    right. assert (Heq : (qx == qy)%Q).
    { apply Qle_antisym; [done|]. apply Qnot_lt_le. tauto. }
    split; [done|]. apply Nat.nlt_ge. tauto.
  - intros [Hlt|[Heq Hle]] [Hlt'|[Heq' Hlt']]; try lia; lra.
Qed.

#[global] Instance rank_ge_trans : Transitive rank_ge.
Proof.
  intros x y z. unfold rank_ge.
  destruct x as [[[sx qx] vx] nx], y as [[[sy qy] vy] ny],
    z as [[[sz qz] vz] nz]. simpl.
  intros [H1|[H1 H1']] [H2|[H2 H2']].
  - left. lra.
  - left. lra.
  - left. lra.
  - right. split; [lra|lia].
Qed.

#[global] Instance rank_ge_total : Total rank_ge.
Proof.
  intros x y. unfold rank_ge.
  destruct x as [[[sx qx] vx] nx], y as [[[sy qy] vy] ny].
  simpl. destruct (Q_dec qx qy) as [[Hlt|Hgt]|Heq].
  - right. by left.
  - left. by left.
  - destruct (Nat.le_ge_cases nx ny).
    + right. right. split; [by symmetry|done].
    + left. right. done.
Qed.



End RankingClaims.


(** * Further properties *)

(** ** More on strings *)

Module PyStrMore.
Import PyStr PyStrFacts.

Lemma split_cons (c : ascii) (s : string) :
  split (String c s)
  = if isspace_char c then split s
    else match s with
         | EmptyString => [String c EmptyString]
         | String c' _ =>
             if isspace_char c' then String c EmptyString :: split s
             else match split s with
                  | w :: ws => String c w :: ws
                  | [] => [String c EmptyString]
                  end
         end.
Proof. by destruct s. Qed.

Lemma split_nonspace (c : ascii) (s : string) :
  isspace_char c = false ->
  exists w ws, split (String c s) = String c w :: ws.
Proof.
  intros Hc. rewrite split_cons, Hc. destruct s as [|c' s]; [by eexists _, _|].
  destruct (isspace_char c'); [by eexists _, _|].
  destruct (split (String c' s)); by eexists _, _.
Qed.

Lemma split_nil (s : string) :
  split s = [] <-> all_chars isspace_char s = true.
Proof.
  induction s as [|c s IH]; [done|].
  change (all_chars isspace_char (String c s))
    with (isspace_char c && all_chars isspace_char s).
  destruct (isspace_char c) eqn:Hc.
  - by rewrite split_cons, Hc.
  - destruct (split_nonspace c s Hc) as (w & ws & ->). done.
Qed.

Lemma isspace_lower_char (c : ascii) :
  isspace_char (lower_char c) = isspace_char c.
Proof. each_char c; reflexivity. Qed.

Lemma lower_idem (s : string) : lower (lower s) = lower s.
Proof. apply lower_fixed, lower_is_lowered. Qed.

Lemma all_chars_lower (p : ascii -> bool) (s : string) :
  (forall c, p (lower_char c) = p c) ->
  all_chars p (lower s) = all_chars p s.
Proof.
  intros Hp. induction s as [|c s IH]; [done|]. simpl. by rewrite Hp, IH.
Qed.

Lemma split_lower (s : string) : split (lower s) = map lower (split s).
Proof.
  induction s as [|c s IH]; [done|].
  change (lower (String c s)) with (String (lower_char c) (lower s)).
  rewrite (split_cons (lower_char c)), (split_cons c), isspace_lower_char.
  destruct (isspace_char c); [done|].
  destruct s as [|c' s]; [done|].
  rewrite IH.
  change (lower (String c' s)) with (String (lower_char c') (lower s)).
  lazy beta iota. rewrite isspace_lower_char.
  destruct (isspace_char c'); [reflexivity|].
  destruct (split (String c' s)); reflexivity.
Qed.

Lemma app_cons (c : ascii) (s t : string) :
  String c s +:+ t = String c (s +:+ t).
Proof. done. Qed.

Lemma split_app_space (a b : string) (c : ascii) :
  isspace_char c = true ->
  split (a +:+ String c b) = split a ++ split (String c b).
Proof.
  intros Hc. induction a as [|x a IH]; [done|].
  rewrite app_cons.
  rewrite (split_cons x (a +:+ String c b)), (split_cons x a).
  destruct (isspace_char x) eqn:Hx; [done|].
  destruct a as [|y a].
  - change ("" +:+ String c b) with (String c b).
    lazy beta iota. by rewrite Hc.
  - rewrite IH. rewrite app_cons. lazy beta iota.
    destruct (isspace_char y) eqn:Hy; [reflexivity|].
    destruct (split_nonspace y a Hy) as (w & ws & ->). reflexivity.
Qed.

Lemma split_app (a sep b : string) :
  sep <> "" -> all_chars isspace_char sep = true ->
  split (a +:+ sep +:+ b) = split a ++ split b.
Proof.
  intros Hne Hsep. destruct sep as [|c sep]; [done|].
  apply andb_prop in Hsep as [Hc Hsep].
  rewrite app_cons, split_app_space by done.
  rewrite split_cons, Hc. by rewrite split_spaces.
Qed.

Lemma split_single (w : string) : is_word w -> split w = [w].
Proof.
  intros [Hne Hw]. rewrite <- (app_empty_r w) at 1. by rewrite split_word.
Qed.

Lemma app_assoc (s t u : string) : (s +:+ t) +:+ u = s +:+ (t +:+ u).
Proof.
  induction s as [|c s IH]; [done|]. by rewrite !app_cons, IH.
Qed.

Lemma all_chars_app (p : ascii -> bool) (s t : string) :
  all_chars p (s +:+ t) = all_chars p s && all_chars p t.
Proof.
  induction s as [|c s IH]; [done|].
  rewrite app_cons. simpl. by rewrite IH, andb_assoc.
Qed.

Lemma lower_app (s t : string) : lower (s +:+ t) = lower s +:+ lower t.
Proof.
  induction s as [|c s IH]; [done|]. rewrite app_cons. simpl.
  by rewrite IH.
Qed.

Lemma lstrip_by_app (p : ascii -> bool) (s t : string) :
  all_chars p s = true -> lstrip_by p (s +:+ t) = lstrip_by p t.
Proof.
  induction s as [|c s IH]; [done|].
  intros [Hc Hs]%andb_prop. rewrite app_cons. simpl. rewrite Hc. by apply IH.
Qed.

Lemma rstrip_by_all_stripped (p : ascii -> bool) (s : string) :
  all_chars p s = true -> rstrip_by p s = "".
Proof.
  induction s as [|c s IH]; [done|].
  intros [Hc Hs]%andb_prop. simpl. by rewrite (IH Hs), Hc.
Qed.

Lemma rstrip_by_app (p : ascii -> bool) (s t : string) :
  all_chars p t = true -> rstrip_by p (s +:+ t) = rstrip_by p s.
Proof.
  intros Ht. induction s as [|c s IH].
  - by apply rstrip_by_all_stripped.
  - rewrite app_cons. simpl. by rewrite IH.
Qed.

Lemma lstrip_by_lstripped (p : ascii -> bool) (s : string) :
  lstripped p (lstrip_by p s).
Proof.
  induction s as [|c s IH]; [done|]. simpl.
  by destruct (p c) eqn:Hc.
Qed.

Lemma lstrip_by_fixed (p : ascii -> bool) (s : string) :
  lstripped p s -> lstrip_by p s = s.
Proof. destruct s as [|c s]; [done|]. simpl. by intros ->. Qed.

Lemma rstrip_by_lstripped (p : ascii -> bool) (s : string) :
  lstripped p s -> lstripped p (rstrip_by p s).
Proof.
  destruct s as [|c s]; [done|]. simpl. intros Hc.
  destruct (rstrip_by p s); [by rewrite Hc|done].
Qed.

Lemma rstrip_by_idem (p : ascii -> bool) (s : string) :
  rstrip_by p (rstrip_by p s) = rstrip_by p s.
Proof.
  induction s as [|c s IH]; [done|]. simpl.
  destruct (rstrip_by p s) as [|d r] eqn:Hr.
  - destruct (p c) eqn:Hc; [done|]. simpl. by rewrite Hc.
  - change (rstrip_by p (String c (String d r)))
      with (match rstrip_by p (String d r) with
            | EmptyString => if p c then EmptyString else String c EmptyString
            | r' => String c r'
            end).
    by rewrite IH.
Qed.

Lemma strip_by_idem (p : ascii -> bool) (s : string) :
  strip_by p (strip_by p s) = strip_by p s.
Proof.
  unfold strip_by.
  rewrite (lstrip_by_fixed p (rstrip_by p (lstrip_by p s))).
  - apply rstrip_by_idem.
  - apply rstrip_by_lstripped, lstrip_by_lstripped.
Qed.

End PyStrMore.

(** ** More on the tokenizer *)

Section TokenizerMore.
Import PyStr PyStrFacts PyStrMore.
Implicit Types (stopwords : gset string) (text w : string).

Lemma punctuation_char_class (c : ascii) :
  char_in c punctuation = true ->
  isspace_char c = false /\ is_lowered c = true.
Proof. each_char c; intros H; try discriminate H; by split. Qed.

Lemma normalize_lower text : normalize (lower text) = normalize text.
Proof. unfold normalize. by rewrite lower_idem. Qed.

Lemma normalize_alpha w :
  isalpha (lower w) = true -> normalize w = lower w.
Proof.
  intros [Hne Hlow]%isalpha_spec. unfold normalize, strip_chars, strip.
  rewrite (strip_by_none isspace_char).
  - apply strip_by_none. revert Hlow. apply all_chars_impl.
    intros c Hc. apply isalpha_char_class in Hc as (_ & _ & ->). done.
  - revert Hlow. apply all_chars_impl.
    intros c Hc. apply isalpha_char_class in Hc as (-> & _). done.
Qed.

(** X1: every word of a word set that [process_lyrics] returns is
    alphabetic, is no stop word and is in lower case. *)
Theorem process_lyrics_words text stopwords w :
  w ∈ process_lyrics text stopwords ->
  isalpha w = true /\ (w ∉ stopwords) /\ lower w = w.
Proof.
  intros Hw. pose proof Hw as [Hv (token & _ & ->)]%elem_of_process_lyrics.
  apply validate_word_true in Hv as [Hnot Halpha].
  repeat split; try done. apply lower_fixed, normalize_lowered.
Qed.

(** X2: the letter case of the text does not matter: the lower-cased
    text gives the same word set. *)
Theorem process_lyrics_lower text stopwords :
  process_lyrics (lower text) stopwords = process_lyrics text stopwords.
Proof.
  rewrite !process_lyrics_eq, split_lower, map_map. do 2 f_equal.
  apply map_ext. intros token. apply normalize_lower.
Qed.

(** X3: the word set of two texts put together with whitespace between
    them is the union of their word sets. *)
Theorem process_lyrics_app text1 sep text2 stopwords :
  sep <> "" -> all_chars isspace_char sep = true ->
  process_lyrics (text1 +:+ sep +:+ text2) stopwords
  = process_lyrics text1 stopwords ∪ process_lyrics text2 stopwords.
Proof.
  intros Hne Hsep. rewrite !process_lyrics_eq, split_app by done.
  by rewrite map_app, List.filter_app, list_to_set_app_L.
Qed.

(** X4: the stop words only remove words: the word set is the one got
    without stop words, less the stop words. *)
Theorem process_lyrics_stopwords text stopwords :
  process_lyrics text stopwords = process_lyrics text ∅ ∖ stopwords.
Proof.
  apply set_eq. intros w.
  rewrite elem_of_difference, !elem_of_process_lyrics, !validate_word_true.
  split.
  - intros [[Hnot Halpha] Htoken]. repeat split; done.
  - intros [[[_ Halpha] Htoken] Hnot]. done.
Qed.

(** X5: a text of whitespace only, the empty text included, has the
    empty word set. *)
Theorem process_lyrics_blank text stopwords :
  all_chars isspace_char text = true -> process_lyrics text stopwords = ∅.
Proof.
  intros Hblank. rewrite process_lyrics_eq.
  by rewrite (proj2 (split_nil text) Hblank).
Qed.

(** X6: punctuation around a word is dropped, when the word is
    alphabetic and its lower case is alphabetic too: the word gives the
    same word set with and without the punctuation, and this set holds
    the word in lower case, unless that is a stop word. *)
Theorem process_lyrics_punctuated (p w q : string) stopwords :
  all_chars (fun c => char_in c punctuation) p = true ->
  all_chars (fun c => char_in c punctuation) q = true ->
  isalpha w = true ->
  isalpha (lower w) = true ->
  process_lyrics (p +:+ w +:+ q) stopwords = process_lyrics w stopwords
  /\ process_lyrics w stopwords
     = if bool_decide (lower w ∈ stopwords) then ∅ else {[lower w]}.
Proof.
  intros Hp Hq Halpha Hlw.
  pose proof (isalpha_is_word w Halpha) as Hword.
  assert (Hnospace : forall s,
    all_chars (fun c => char_in c punctuation) s = true ->
    all_chars (fun c => negb (isspace_char c)) s = true).
  { intros s. apply all_chars_impl. intros c Hc.
    by apply punctuation_char_class in Hc as [-> _]. }
  assert (Hpunct_low : forall s,
    all_chars (fun c => char_in c punctuation) s = true -> lower s = s).
  { intros s Hs. apply lower_fixed. revert Hs. apply all_chars_impl.
    intros c Hc. by apply punctuation_char_class in Hc as [_ ->]. }
  assert (Hnorm : normalize (p +:+ w +:+ q) = lower w).
  { unfold normalize, strip_chars, strip.
    rewrite !lower_app, (Hpunct_low p Hp), (Hpunct_low q Hq).
    rewrite (strip_by_none isspace_char).
    - unfold strip_by. rewrite lstrip_by_app by done.
      rewrite lstrip_by_fixed.
      + rewrite rstrip_by_app by done. apply rstrip_by_none.
        apply isalpha_spec in Hlw as [_ Hall]. revert Hall.
        apply all_chars_impl. intros c Hc.
        apply isalpha_char_class in Hc as (_ & _ & ->). done.
      + apply isalpha_spec in Hlw as [Hne Hall].
        destruct (lower w) as [|c lw]; [done|].
        change (char_in c punctuation = false).
        change (isalpha_char c && all_chars isalpha_char lw = true) in Hall.
        apply andb_prop in Hall as [Hc _].
        by apply isalpha_char_class in Hc as (_ & _ & ->).
    - rewrite !all_chars_app, (Hnospace p Hp), (Hnospace q Hq).
      by rewrite (proj2 (isalpha_is_word _ Hlw)). }
  assert (Hsplit : split (p +:+ w +:+ q) = [p +:+ w +:+ q]).
  { apply split_single. split.
    - destruct Hword as [Hne _]. destruct p; [by destruct w|done].
    - rewrite !all_chars_app, (Hnospace p Hp), (Hnospace q Hq).
      by rewrite (proj2 Hword). }
  rewrite !process_lyrics_eq, Hsplit, (split_single w Hword). simpl.
  rewrite Hnorm, (normalize_alpha w Hlw). split; [done|].
  unfold validate_word. rewrite Hlw.
  destruct (decide (lower w ∈ stopwords)) as [Hin|Hnot].
  - rewrite (bool_decide_eq_true_2 (lower w ∈ stopwords)) by done.
    rewrite (bool_decide_eq_false_2 (lower w ∉ stopwords))
      by (intros H; by apply H).
    done.
  - rewrite (bool_decide_eq_false_2 (lower w ∈ stopwords)) by done.
    rewrite (bool_decide_eq_true_2 (lower w ∉ stopwords)) by done. simpl.
    apply (right_id_L ∅ (∪)).
Qed.

Lemma validate_loop_Forall (word_list : list string) stopwords :
  validate_loop word_list stopwords = true <->
  Forall (fun w => validate_word w stopwords = true) word_list.
Proof.
  induction word_list as [|w l IH]; simpl.
  - split; [constructor|done].
  - rewrite Forall_cons. destruct (validate_word w stopwords); simpl.
    + rewrite IH. tauto.
    + split; [done|]. by intros [? _].
Qed.

(** X7: [validate_set] is true exactly when every word of the set
    passes [validate_word]. *)
Theorem validate_set_iff (word_set stopwords : gset string) :
  validate_set word_set stopwords = true <->
  forall w, w ∈ word_set -> validate_word w stopwords = true.
Proof.
  unfold validate_set. rewrite validate_loop_Forall, Forall_forall.
  split; intros H w Hw; apply H; by apply elem_of_elements.
Qed.

(** X8: the word set of any text is a query that [validate_set]
    accepts, with the same stop words. *)
Theorem validate_set_process_lyrics text stopwords :
  validate_set (process_lyrics text stopwords) stopwords = true.
Proof.
  unfold validate_set. apply validate_loop_Forall, Forall_forall.
  intros w Hw%elem_of_elements. by apply processed_word in Hw as [Hv _].
Qed.

(** X9: every stop word that [read_stopwords] returns is in lower case
    and has no whitespace at either end. *)
Theorem read_stopwords_normalized (fp : list string) w :
  w ∈ read_stopwords fp -> strip w = w /\ lower w = w.
Proof.
  unfold read_stopwords. rewrite elem_of_list_to_set, list_elem_of_In.
  intros (line & <- & _)%in_map_iff. split.
  - apply strip_by_idem.
  - apply lower_fixed, strip_by_all, lower_is_lowered.
Qed.

(** X10: a word on a line of the stop word file, in any letter case and
    with any whitespace around it, is in no word set made with the stop
    words read from that file. *)
Theorem read_stopwords_filtered (fp : list string) (line : string) text :
  In line fp ->
  strip (lower line) ∉ process_lyrics text (read_stopwords fp).
Proof.
  intros Hline Hin. apply processed_word in Hin as [Hv _].
  apply validate_word_true in Hv as [Hnot _].
  apply Hnot. unfold read_stopwords.
  apply elem_of_list_to_set, list_elem_of_In, in_map_iff. eauto.
Qed.

End TokenizerMore.

(** ** More on the index builder *)

Section BuilderMore.
Import PyDict PyDictFacts.
Implicit Types (data_dict : index_t) (singer song : string)
  (words stopwords : gset string) (line : list string).

Lemma set_set {V} (d : dict V) (k : string) (v1 v2 : V) :
  set (set d k v1) k v2 = set d k v2.
Proof.
  induction d as [|[k' v'] d IH]; simpl.
  - by case_decide.
  - destruct (decide (k' = k)) as [->|Hne]; simpl.
    + by case_decide.
    + case_decide; [done|]. by rewrite IH.
Qed.

Lemma read_line_fields data_dict line stopwords :
  3 <= length line ->
  read_line data_dict line stopwords
  = Ok (update_dictionary data_dict (row_insert stopwords line).1.1
          (row_insert stopwords line).1.2 (row_insert stopwords line).2).
Proof.
  intros Hlen. destruct line as [|f0 [|f1 [|f2 rest]]]; simpl in Hlen;
    try lia. reflexivity.
Qed.

Lemma read_lines_inserts data_dict (reader : list (list string)) stopwords :
  Forall (fun line => 3 <= length line) reader ->
  read_lines data_dict reader stopwords
  = Ok (insert_all data_dict (map (row_insert stopwords) reader)).
Proof.
  intros Hall. revert data_dict.
  induction Hall as [|line reader Hline Hall IH]; intros data_dict; [done|].
  simpl. rewrite read_line_fields by done. simpl. rewrite IH.
  by destruct (row_insert stopwords line) as [[singer song] words].
Qed.

Lemma read_lines_ok data_dict (reader : list (list string)) stopwords :
  is_ok (read_lines data_dict reader stopwords) = true <->
  Forall (fun line => 3 <= length line) reader.
Proof.
  split.
  - intros Hok.
    destruct (decide (Forall (fun line => 3 <= length line) reader))
      as [|Hnot]; [done|].
    apply not_Forall_Exists in Hnot; [|apply _].
    rewrite read_lines_short in Hok; [done|].
    eapply Exists_impl; [exact Hnot|]. simpl. lia.
  - intros Hall. by rewrite read_lines_inserts.
Qed.

(** X11: [read_data] raises [StopIteration] on a file without rows; on a
    file with a header row it returns exactly when every later row has
    three fields or more, and the index it returns is then the one that
    the inserts of the tokenized rows build, in the order of the rows. *)
Theorem read_data_returns (header : list string)
    (reader : list (list string)) stopwords :
  read_data [] stopwords = Raise StopIteration
  /\ (is_ok (read_data (header :: reader) stopwords) = true <->
      Forall (fun line => 3 <= length line) reader)
  /\ (Forall (fun line => 3 <= length line) reader ->
      read_data (header :: reader) stopwords
      = Ok (insert_all [] (map (row_insert stopwords) reader))).
Proof.
  split; [done|]. split; [apply read_lines_ok|apply read_lines_inserts].
Qed.

Lemma update_words_valid stopwords data_dict singer song words :
  words_valid stopwords data_dict ->
  (forall w, w ∈ words -> validate_word w stopwords = true) ->
  words_valid stopwords (update_dictionary data_dict singer song words).
Proof.
  intros Hd Hwords. unfold update_dictionary, words_valid in *.
  destruct (get data_dict singer) as [songs|] eqn:Hget.
  - apply set_Forall; [done|]. simpl. apply set_Forall; [|done].
    apply get_Some_In in Hget. rewrite Forall_forall in Hd.
    by apply (Hd (singer, songs)), list_elem_of_In.
  - apply set_Forall; [done|]. simpl. by repeat constructor.
Qed.

Lemma reachable_words_valid stopwords data_dict reader data_dict' :
  words_valid stopwords data_dict ->
  read_lines data_dict reader stopwords = Ok data_dict' ->
  words_valid stopwords data_dict'.
Proof.
  revert data_dict. induction reader as [|line reader IH];
    intros data_dict Hd; simpl.
  - by intros [= <-].
  - destruct (read_line data_dict line stopwords) as [d1|e] eqn:Hline;
      [|done].
    apply read_line_Ok in Hline as (singer & song & lyrics & _ & _ & _ & ->).
    apply IH, update_words_valid; [done|].
    intros w Hw. by apply processed_word in Hw as [Hv _].
Qed.

Lemma words_valid_lookup2 stopwords data_dict singer song words w :
  words_valid stopwords data_dict ->
  lookup2 data_dict singer song = Some words -> w ∈ words ->
  validate_word w stopwords = true.
Proof.
  unfold words_valid, lookup2. intros Hd Hlook Hw.
  destruct (get data_dict singer) as [songs|] eqn:Hget; [|done].
  simpl in Hlook. apply get_Some_In, list_elem_of_In in Hget, Hlook.
  rewrite Forall_forall in Hd. specialize (Hd _ Hget). simpl in Hd.
  rewrite Forall_forall in Hd. by apply (Hd _ Hlook).
Qed.

Lemma read_data_words_valid (reader : list (list string)) stopwords
    data_dict :
  read_data reader stopwords = Ok data_dict ->
  words_valid stopwords data_dict.
Proof.
  destruct reader as [|header reader]; [done|].
  apply reachable_words_valid. constructor.
Qed.

(** X12: every word that the index returned by [read_data] stores for a
    song passes [validate_word] with the stop words of the build. *)
Theorem read_data_stores_valid_words (reader : list (list string))
    stopwords data_dict singer song words w :
  read_data reader stopwords = Ok data_dict ->
  lookup2 data_dict singer song = Some words -> w ∈ words ->
  validate_word w stopwords = true.
Proof.
  intros Hread. apply words_valid_lookup2.
  by apply (read_data_words_valid reader).
Qed.

Lemma insert_all_app data_dict
    (inserts1 inserts2 : list (string * string * gset string)) :
  insert_all data_dict (inserts1 ++ inserts2)
  = insert_all (insert_all data_dict inserts1) inserts2.
Proof. apply fold_left_app. Qed.

(** X13: the last row of an artist and song decides the word set of the
    song: rows before it, for the same song or not, and rows after it
    for other songs do not change it. *)
Theorem read_data_last_row_wins (header : list string)
    (before after : list (list string)) singer song (lyrics : string)
    (rest : list string) stopwords :
  Forall (fun line => 3 <= length line) (before ++ after) ->
  Forall (fun line => (nth 0 line "", nth 1 line "") <> (singer, song))
    after ->
  exists data_dict,
    read_data (header :: before ++ (singer :: song :: lyrics :: rest) :: after)
      stopwords
    = Ok data_dict
    /\ lookup2 data_dict singer song
       = Some (process_lyrics (PyStr.lower lyrics) stopwords).
Proof.
  intros [Hbefore Hafter]%Forall_app Hother.
  eexists. split.
  - apply read_lines_inserts. apply Forall_app. split; [done|].
    constructor; [simpl; lia|done].
  - rewrite map_app, insert_all_app. simpl.
    rewrite insert_all_not_In; [apply update_lookup_eq|].
    rewrite map_map. intros (line & Hkey & Hline)%in_map_iff.
    rewrite Forall_forall in Hother.
    by apply (Hother line); [apply list_elem_of_In|].
Qed.

(** X14: a second insert for the same artist and song leaves the index
    as if only the second had been made; in particular an insert made
    twice is the insert made once. *)
Theorem update_dictionary_overwrite data_dict singer song words1 words2 :
  update_dictionary (update_dictionary data_dict singer song words1)
    singer song words2
  = update_dictionary data_dict singer song words2.
Proof.
  unfold update_dictionary.
  destruct (get data_dict singer) as [songs|] eqn:Hget;
    rewrite get_set_eq, !set_set; [done|].
  simpl. by case_decide.
Qed.

(** X15: an insert keeps the order of the index: an artist already there
    keeps its place, as a song already there does among the songs of its
    artist, and a new artist or a new song goes last. *)
Theorem update_dictionary_order data_dict singer song words :
  keys (update_dictionary data_dict singer song words)
  = match get data_dict singer with
    | Some _ => keys data_dict
    | None => keys data_dict ++ [singer]
    end
  /\ exists songs',
      get (update_dictionary data_dict singer song words) singer = Some songs'
      /\ keys songs'
         = match get data_dict singer with
           | Some songs =>
               match get songs song with
               | Some _ => keys songs
               | None => keys songs ++ [song]
               end
           | None => [song]
           end.
Proof.
  unfold update_dictionary.
  destruct (get data_dict singer) as [songs|] eqn:Hget;
    rewrite keys_set, Hget; (split; [done|]);
    eexists; (split; [apply get_set_eq|]).
  - apply keys_set.
  - done.
Qed.

Lemma song_count_pairs data_dict :
  song_count data_dict = length (all_pairs data_dict).
Proof.
  unfold song_count, all_pairs.
  induction data_dict as [|[singer songs] data_dict IH]; [done|].
  simpl. rewrite length_app, length_map. unfold keys at 1.
  by rewrite length_map, IH.
Qed.

Lemma insert_all_has data_dict (inserts : list (string * string * gset string))
    singer song :
  is_Some (lookup2 (insert_all data_dict inserts) singer song) <->
  is_Some (lookup2 data_dict singer song)
  \/ In (singer, song) (map fst inserts).
Proof.
  revert data_dict.
  induction inserts as [|[[singer' song'] words] inserts IH];
    intros data_dict.
  - simpl. tauto.
  - change (insert_all data_dict (((singer', song'), words) :: inserts))
      with (insert_all (update_dictionary data_dict singer' song' words)
              inserts).
    rewrite IH, update_lookup2. simpl. case_decide as Heq.
    + split; [intros _|by left]. right. by left.
    + split; [tauto|]. intros [H|[H|H]]; [by left|done|by right].
Qed.

(** X16: the number of songs of an index built by inserts is the number
    of different (artist, song) pairs inserted, not the number of
    inserts. *)
Theorem song_count_insert_all
    (inserts : list (string * string * gset string)) :
  song_count (insert_all [] inserts)
  = length (remove_dups (map fst inserts)).
Proof.
  rewrite song_count_pairs. apply Permutation_length.
  assert (Hwf : wf_index (insert_all [] inserts)).
  { apply reachable_wf, insert_all_reachable. constructor. }
  apply NoDup_Permutation.
  - rewrite <- all_hits_empty. by apply NoDup_all_hits.
  - apply NoDup_remove_dups.
  - intros [singer song]. rewrite elem_of_remove_dups, !list_elem_of_In.
    rewrite <- all_hits_empty, (In_all_hits _ _ _ _ (proj1 Hwf)).
    split.
    + intros (word_set & Hlook & _).
      destruct (proj1 (insert_all_has [] inserts singer song))
        as [[? Hnone]|Hin]; [by exists word_set|done|done].
    + intros Hin. destruct (proj2 (insert_all_has [] inserts singer song))
        as [word_set Hlook]; [by right|].
      exists word_set. split; [done|]. apply empty_subseteq.
Qed.

End BuilderMore.

(** ** More on the statistics *)

Section StatisticsMore.
Import PyDict PyDictFacts.
Variable round_double : Q -> Q.
Implicit Types (data_dict : index_t) (songs : dict (gset string)).

Lemma average_loop_raise (average_dict : dict Q) (items : index_t) :
  Exists (fun entry => entry.2 = []) items ->
  average_loop round_double average_dict items = Raise ZeroDivisionError.
Proof.
  intros Hex. revert average_dict.
  induction items as [|[singer songs] items IH]; intros average_dict.
  - by apply Exists_nil in Hex.
  - simpl. destruct songs as [|song songs].
    + done.
    + rewrite truediv_songs by done. simpl. apply IH.
      by apply Exists_cons in Hex as [Hnil|Hex].
Qed.

Lemma not_songs_nonempty data_dict :
  ~ songs_nonempty data_dict -> Exists (fun entry => entry.2 = []) data_dict.
Proof.
  intros Hnot. apply not_Forall_Exists in Hnot; [|apply _].
  eapply Exists_impl; [exact Hnot|]. intros [singer songs]. simpl.
  destruct songs; [done|]. intros H. by destruct H.
Qed.

(** X17: [calculate_average_word_count] returns exactly when every
    artist of the index has a song, and raises [ZeroDivisionError]
    exactly when some artist has none. *)
Theorem average_word_count_returns data_dict :
  (is_ok (calculate_average_word_count round_double data_dict) = true <->
   songs_nonempty data_dict)
  /\ (calculate_average_word_count round_double data_dict
      = Raise ZeroDivisionError <->
      Exists (fun entry => entry.2 = []) data_dict).
Proof.
  unfold calculate_average_word_count.
  destruct (decide (songs_nonempty data_dict)) as [Hne|Hempty].
  - destruct (average_loop_ok round_double [] data_dict Hne) as [avg Havg].
    rewrite Havg. split; [done|]. split; [done|].
    intros Hex. unfold songs_nonempty in Hne.
    apply Exists_exists in Hex as (entry & Hin & Hnil).
    rewrite Forall_forall in Hne. by destruct (Hne entry Hin).
  - pose proof (not_songs_nonempty _ Hempty) as Hex.
    rewrite (average_loop_raise [] data_dict Hex). done.
Qed.

Lemma average_loop_keys (average_dict result_dict : dict Q)
    (items : index_t) :
  NoDup (keys average_dict ++ keys items) ->
  average_loop round_double average_dict items = Ok result_dict ->
  keys result_dict = keys average_dict ++ keys items.
Proof.
  revert average_dict. induction items as [|[singer songs] items IH];
    intros average_dict Hnd; simpl.
  - intros [= <-]. by rewrite app_nil_r.
  - destruct (truediv _ _ _) as [average|e]; [|done]. simpl.
    intros Hloop. apply IH in Hloop.
    + rewrite Hloop, keys_set.
      rewrite (proj2 (get_None average_dict singer)).
      * by rewrite <- app_assoc.
      * apply NoDup_app in Hnd as (_ & Hdisj & _).
        intros Hin%list_elem_of_In. apply (Hdisj singer Hin). by left.
    + rewrite keys_set, (proj2 (get_None average_dict singer)).
      * by rewrite <- app_assoc.
      * apply NoDup_app in Hnd as (_ & Hdisj & _).
        intros Hin%list_elem_of_In. apply (Hdisj singer Hin). by left.
Qed.

(** X18: the dictionary of averages has the artists of the index as its
    keys, in the order of the index. *)
Theorem average_word_count_keys data_dict (average_dict : dict Q) :
  wf data_dict ->
  calculate_average_word_count round_double data_dict = Ok average_dict ->
  keys average_dict = keys data_dict.
Proof.
  intros Hwf Hcalc. by apply average_loop_keys in Hcalc.
Qed.

Lemma vocab_words_loop (word_list : list string) (union_set : gset string) :
  fold_left (fun union_set word => union_set ∪ {[word]}) word_list union_set
  = union_set ∪ list_to_set word_list.
Proof.
  revert union_set. induction word_list as [|w l IH]; intros union_set; simpl.
  - by rewrite (right_id_L ∅ (∪)).
  - rewrite IH. by rewrite (assoc_L (∪)).
Qed.

Lemma vocab_songs_loop (word_sets : list (gset string))
    (union_set : gset string) :
  fold_left
    (fun union_set word_set =>
       fold_left (fun union_set word => union_set ∪ {[word]})
         (elements word_set) union_set)
    word_sets union_set
  = union_set ∪ ⋃ word_sets.
Proof.
  revert union_set. induction word_sets as [|ws l IH]; intros union_set; simpl.
  - by rewrite (right_id_L ∅ (∪)).
  - rewrite IH, vocab_words_loop, list_to_set_elements_L.
    by rewrite (assoc_L (∪)).
Qed.

Lemma find_singers_vocab_loop (items : index_t)
    (vocab_dict : dict (gset string)) singer :
  wf items ->
  get
    (fold_left
       (fun vocab_dict '(singer, songs) =>
          let union_set :=
            fold_left
              (fun union_set word_set =>
                 fold_left (fun union_set word => union_set ∪ {[word]})
                   (elements word_set) union_set)
              (values songs) (∅ : gset string) in
          set vocab_dict singer union_set)
       items vocab_dict)
    singer
  = match get items singer with
    | Some songs => Some (vocabulary_of songs)
    | None => get vocab_dict singer
    end.
Proof.
  unfold wf. revert vocab_dict.
  induction items as [|[singer' songs] items IH]; intros vocab_dict Hwf;
    [done|].
  change (NoDup (singer' :: keys items)) in Hwf.
  apply NoDup_cons in Hwf as [Hnot Hwf].
  simpl. rewrite IH by done. rewrite vocab_songs_loop.
  rewrite (left_id_L ∅ (∪)). case_decide as Heq.
  - subst singer'. rewrite (proj2 (get_None items singer)).
    + apply get_set_eq.
    + by rewrite <- list_elem_of_In.
  - destruct (get items singer); [done|]. by apply get_set_ne.
Qed.

Lemma find_singers_vocab_get data_dict singer songs :
  wf data_dict -> get data_dict singer = Some songs ->
  get (find_singers_vocab data_dict) singer = Some (vocabulary_of songs).
Proof.
  intros Hwf Hget. unfold find_singers_vocab.
  by rewrite find_singers_vocab_loop, Hget.
Qed.

(** X19: the vocabulary that [find_singers_vocab] stores for an artist
    holds exactly the words of the artist's songs. *)
Theorem find_singers_vocab_words data_dict singer songs :
  wf data_dict -> get data_dict singer = Some songs ->
  exists vocab,
    get (find_singers_vocab data_dict) singer = Some vocab
    /\ forall w,
        w ∈ vocab <->
        exists song word_set, In (song, word_set) songs /\ w ∈ word_set.
Proof.
  intros Hwf Hget. exists (vocabulary_of songs).
  split; [by apply find_singers_vocab_get|].
  intros w. unfold vocabulary_of. rewrite elem_of_union_list. split.
  - intros (word_set & Hin & Hw). unfold values in Hin.
    apply list_elem_of_In, in_map_iff in Hin as ([song ws] & <- & Hin).
    eauto.
  - intros (song & word_set & Hin & Hw). exists word_set. split; [|done].
    apply list_elem_of_In. change word_set with (snd (song, word_set)).
    by apply in_map.
Qed.

Lemma size_union_list_le (word_sets : list (gset string)) :
  size (⋃ word_sets) <= sum_list (map size word_sets).
Proof.
  induction word_sets as [|ws l IH].
  - by rewrite union_list_nil, size_empty.
  - rewrite union_list_cons, size_union_alt.
    change (sum_list (map size (ws :: l)))
      with (size ws + sum_list (map size l)).
    assert (Hsub : ⋃ l ∖ ws ⊆ ⋃ l).
    { intros w [Hw _]%elem_of_difference. done. }
    apply subseteq_size in Hsub. lia.
Qed.

(** X20: the vocabulary of an artist is at least as large as the word
    set of each of the artist's songs, and at most as large as the sum
    of the sizes of these word sets. *)
Theorem find_singers_vocab_size data_dict singer songs :
  wf data_dict -> get data_dict singer = Some songs ->
  exists vocab,
    get (find_singers_vocab data_dict) singer = Some vocab
    /\ size vocab <= sum_list (map size (values songs))
    /\ forall song word_set,
        In (song, word_set) songs -> size word_set <= size vocab.
Proof.
  intros Hwf Hget. exists (vocabulary_of songs).
  split; [by apply find_singers_vocab_get|].
  split; [apply size_union_list_le|].
  intros song word_set Hin. apply subseteq_size.
  intros w Hw. unfold vocabulary_of. apply elem_of_union_list.
  exists word_set. split; [|done].
  apply list_elem_of_In. change word_set with (snd (song, word_set)).
  by apply in_map.
Qed.

Lemma singers_loop_spec (singers_list : list singer_tuple)
    (items : index_t) (average_words : dict Q)
    (distinct_vocab : dict (gset string)) :
  Forall
    (fun entry =>
       get average_words entry.1 = Some (average_of round_double entry.2)
       /\ get distinct_vocab entry.1 = Some (vocabulary_of entry.2))
    items ->
  singers_loop singers_list items average_words distinct_vocab
  = Ok (singers_list ++ map (singer_tuple_of round_double) items).
Proof.
  intros Hall. revert singers_list.
  induction Hall as [|[singer songs] items [Havg Hvocab] Hall IH];
    intros singers_list; simpl.
  - by rewrite app_nil_r.
  - simpl in Havg, Hvocab. unfold getitem. rewrite Hvocab, Havg. simpl.
    rewrite IH, <- app_assoc. unfold keys. by rewrite length_map.
Qed.

Lemma main_singers_list_spec data_dict :
  wf data_dict -> songs_nonempty data_dict ->
  main_singers_list round_double data_dict
  = Ok (map (singer_tuple_of round_double) data_dict).
Proof.
  intros Hwf Hne. unfold main_singers_list, calculate_average_word_count.
  destruct (average_loop_spec round_double [] data_dict Hwf Hne)
    as (average_words & -> & Havg).
  simpl. rewrite singers_loop_spec; [done|].
  apply Forall_forall. intros [singer songs] Hin%list_elem_of_In. simpl.
  pose proof (In_get_Some _ _ _ Hwf Hin) as Hget. split.
  - by rewrite Havg, Hget.
  - by apply find_singers_vocab_get.
Qed.

(** X21: on an index where every artist has a song, the statistics part
    of [main] raises no [KeyError]: it makes one tuple for each artist,
    in the order of the index, of the artist's name, average, vocabulary
    size and number of songs. *)
Theorem main_singers_list_tuples data_dict :
  wf data_dict -> songs_nonempty data_dict ->
  main_singers_list round_double data_dict
  = Ok (map
          (fun entry : string * dict (gset string) =>
             (entry.1,
              round_double
                (Z.of_nat (sum_list (map size (values entry.2)))
                 # Pos.of_nat (length entry.2)),
              size (⋃ (values entry.2)),
              length entry.2))
          data_dict).
Proof. apply main_singers_list_spec. Qed.

(** X22: [main], up to the table of singers, returns exactly when the
    song file has a header row and every later row has three fields or
    more; the statistics raise nothing on the index that was built. *)
Theorem main_report_returns (stop_fp : list string)
    (reader : list (list string)) :
  is_ok (main_report round_double stop_fp reader) = true <->
  exists header lines,
    reader = header :: lines
    /\ Forall (fun line => 3 <= length line) lines.
Proof.
  unfold main_report.
  destruct (read_data reader (read_stopwords stop_fp)) as [data_dict|e]
    eqn:Hread.
  - pose proof (read_data_reachable _ _ _ Hread) as Hreach.
    simpl. rewrite main_singers_list_spec.
    + simpl. split; [intros _|done].
      destruct reader as [|header lines]; [done|].
      exists header, lines. split; [done|].
      apply (read_lines_ok [] lines (read_stopwords stop_fp)).
      simpl in Hread. by rewrite Hread.
    + by apply reachable_wf in Hreach as [? _].
    + by apply reachable_songs_nonempty.
  - simpl. split; [done|]. intros (header & lines & -> & Hall).
    apply (read_lines_ok [] lines (read_stopwords stop_fp)) in Hall.
    simpl in Hread. by rewrite Hread in Hall.
Qed.

End StatisticsMore.

(** ** More on the ranking *)

Section RankingMore.

(** X23: [display_singers] prints its three heading lines and then
    [min 10 n] rows for [n] tuples; every tuple with a row ranks at
    least as high, by average and then by number of songs, as every
    tuple without one. *)
Theorem display_singers_cut (combined_list : list singer_tuple) :
  exists top others,
    top ++ others ≡ₚ combined_list
    /\ display_singers combined_list
       = [Title; Header; Rule] ++ map singer_row top
    /\ length top = min 10 (length combined_list)
    /\ forall x y, In x top -> In y others -> rank_ge x y.
Proof.
  set (singers_list := sorted combined_list itemgetter_1_3 float_int_lt true).
  assert (Hperm : singers_list ≡ₚ combined_list) by apply sort_stable_perm.
  assert (Hsorted : StronglySorted rank_ge singers_list).
  { apply sort_stable_sorted; try apply _.
    intros x y. apply float_int_lt_false. }
  exists (take 10 singers_list), (drop 10 singers_list).
  rewrite take_drop. split; [done|]. split; [done|]. split.
  - by rewrite length_take, (Permutation_length Hperm).
  - intros x y Hx%list_elem_of_In Hy%list_elem_of_In.
    rewrite <- (take_drop 10 singers_list) in Hsorted.
    by apply (StronglySorted_app_1_elem_of _ _ _ _ _ Hsorted).
Qed.

End RankingMore.

(** ** More on the search *)

Section SearchMore.
Import PyDict PyDictFacts.
Implicit Types (data_dict : index_t) (words stopwords : gset string).

(** X24: a query with fewer words finds at least as much: every song
    found for a query is found for each subset of the query. *)
Theorem search_songs_monotone data_dict words words' :
  words' ⊆ words ->
  exists match_list match_list',
    search_songs data_dict words = Ok match_list
    /\ search_songs data_dict words' = Ok match_list'
    /\ forall pair, In pair match_list -> In pair match_list'.
Proof.
  intros Hsub. eexists _, _. split; [apply search_songs_spec|].
  split; [apply search_songs_spec|]. intros [singer song].
  rewrite <- !list_elem_of_In, !sorted_pairs_perm, !list_elem_of_In.
  rewrite !In_all_hits_entry.
  intros (songs & word_set & Hentry & Hget & Hwords).
  exists songs, word_set. split; [done|]. split; [done|]. by etrans.
Qed.

(** X25: the words of a query are joined by "and": a song is found for
    the union of two queries exactly when it is found for both. *)
Theorem search_songs_union data_dict words1 words2 :
  wf data_dict ->
  exists match_list match_list1 match_list2,
    search_songs data_dict (words1 ∪ words2) = Ok match_list
    /\ search_songs data_dict words1 = Ok match_list1
    /\ search_songs data_dict words2 = Ok match_list2
    /\ forall pair,
        In pair match_list <-> In pair match_list1 /\ In pair match_list2.
Proof.
  intros Hwf. eexists _, _, _. split; [apply search_songs_spec|].
  split; [apply search_songs_spec|]. split; [apply search_songs_spec|].
  intros [singer song].
  rewrite <- !list_elem_of_In, !sorted_pairs_perm, !list_elem_of_In.
  rewrite !In_all_hits by done. split.
  - intros (word_set & Hlook & Hsub). split; exists word_set;
      (split; [done|]); intros w Hw; apply Hsub, elem_of_union; auto.
  - intros [(word_set & Hlook & Hsub1) (word_set' & Hlook' & Hsub2)].
    rewrite Hlook in Hlook'. injection Hlook' as <-.
    exists word_set. split; [done|]. by apply union_least.
Qed.

(** X26: on an index returned by [read_data], a query that holds a word
    rejected by [validate_word], with the stop words of the build, finds
    no song. *)
Theorem search_songs_invalid_word (reader : list (list string))
    stopwords data_dict words w :
  read_data reader stopwords = Ok data_dict ->
  w ∈ words -> validate_word w stopwords = false ->
  search_songs data_dict words = Ok [].
Proof.
  intros Hread Hw Hinvalid. rewrite search_songs_spec.
  destruct (all_hits data_dict words) as [|[singer song] hits] eqn:Hhits;
    [done|].
  assert (Hin : In (singer, song) (all_hits data_dict words)).
  { rewrite Hhits. by left. }
  apply In_all_hits_entry in Hin as (songs & word_set & Hentry & Hget & Hsub).
  apply read_data_words_valid in Hread. unfold words_valid in Hread.
  rewrite Forall_forall in Hread.
  specialize (Hread _ (proj2 (list_elem_of_In _ _) Hentry)). simpl in Hread.
  rewrite Forall_forall in Hread. apply get_Some_In, list_elem_of_In in Hget.
  specialize (Hread _ Hget w (Hsub w Hw)). congruence.
Qed.

End SearchMore.

(** ** The search loop *)

Section LoopMore.
Import PyStr PyStrFacts PyStrMore.
Implicit Types (data_dict : index_t) (stopwords : gset string)
  (line : string).

Lemma list_to_set_empty_nil (l : list string) :
  list_to_set l = (∅ : gset string) <-> l = [].
Proof.
  split; [|by intros ->]. destruct l as [|x l]; [done|]. intros Hempty.
  assert (Hx : x ∈ (list_to_set (x :: l) : gset string)).
  { apply elem_of_list_to_set. by left. }
  rewrite Hempty in Hx. by apply elem_of_empty in Hx.
Qed.

Lemma query_of_empty line :
  query_of line = ∅ <-> all_chars isspace_char line = true.
Proof.
  unfold query_of. rewrite list_to_set_empty_nil, split_nil.
  by rewrite all_chars_lower by apply isspace_lower_char.
Qed.

Lemma answer_cases data_dict stopwords line :
  answer data_dict stopwords line
  = if bool_decide (query_of line = ∅) then Ok None
    else if negb (validate_set (query_of line) stopwords)
         then Ok (Some [ErrorInWords])
         else
           let searched_list :=
             sorted (all_hits data_dict (query_of line)) itemgetter_0_1
               str_pair_lt false in
           Ok (Some (SongCount (length searched_list)
                     :: match searched_list with
                        | [] => []
                        | _ => SongHeader
                               :: map song_row (take 5 searched_list)
                        end)).
Proof.
  unfold answer. fold (query_of line).
  destruct (bool_decide (query_of line = ∅)); [done|].
  destruct (validate_set (query_of line) stopwords); [|done].
  rewrite search_songs_spec.
  generalize (sorted (all_hits data_dict (query_of line)) itemgetter_0_1
                str_pair_lt false).
  intros searched_list. by destruct searched_list.
Qed.

(** X27: a turn of the search loop leaves the loop exactly when the line
    typed has no character other than whitespace. *)
Theorem answer_exits_iff data_dict stopwords line :
  answer data_dict stopwords line = Ok None <->
  all_chars isspace_char line = true.
Proof.
  rewrite answer_cases, <- query_of_empty.
  destruct (bool_decide_reflect (query_of line = ∅)) as [Heq|Hne].
  - done.
  - destruct (negb _); simpl; split; done.
Qed.

(** X28: when a word of the line typed, in lower case, fails
    [validate_word] (it holds a character that is no letter, or it is a
    stop word), the turn prints the error and searches nothing. *)
Theorem answer_rejects data_dict stopwords line (word : string) :
  In word (split (lower line)) ->
  validate_word word stopwords = false ->
  answer data_dict stopwords line = Ok (Some [ErrorInWords]).
Proof.
  intros Hword Hinvalid. rewrite answer_cases.
  assert (Hin : word ∈ query_of line).
  { by apply elem_of_list_to_set, list_elem_of_In. }
  rewrite bool_decide_eq_false_2.
  - destruct (validate_set (query_of line) stopwords) eqn:Hvalid; [|done].
    unfold validate_set in Hvalid.
    apply validate_loop_Forall in Hvalid. rewrite Forall_forall in Hvalid.
    specialize (Hvalid word (proj2 (elem_of_elements _ _) Hin)). congruence.
  - intros Hempty. rewrite Hempty in Hin. by apply elem_of_empty in Hin.
Qed.

(** X29: on a line with a word, all of whose words pass
    [validate_set], the turn raises nothing and prints the number of all
    the songs that [search_songs] finds for these words, and rows for
    the first five of them at most, in the order of [search_songs]. *)
Theorem answer_lists data_dict stopwords line :
  all_chars isspace_char line = false ->
  validate_set (query_of line) stopwords = true ->
  exists searched_list,
    search_songs data_dict (query_of line) = Ok searched_list
    /\ answer data_dict stopwords line
       = Ok (Some (SongCount (length searched_list)
                   :: match searched_list with
                      | [] => []
                      | _ => SongHeader
                             :: map song_row (take 5 searched_list)
                      end))
    /\ length (map song_row (take 5 searched_list)) <= 5.
Proof.
  intros Hline Hvalid. eexists. split; [apply search_songs_spec|].
  split.
  - rewrite answer_cases, Hvalid. rewrite bool_decide_eq_false_2; [done|].
    intros Hempty%query_of_empty. congruence.
  - rewrite length_map, length_take. lia.
Qed.

Lemma answer_goes_on data_dict stopwords line :
  all_chars isspace_char line = false ->
  exists out, answer data_dict stopwords line = Ok (Some out).
Proof.
  intros Hline. rewrite answer_cases. rewrite bool_decide_eq_false_2.
  - destruct (negb _); by eexists.
  - intros Hempty%query_of_empty. congruence.
Qed.

(** X30: the search loop takes the lines typed one after the other up
    to the first line of whitespace only, where it ends normally with
    the later lines unread; what it has printed by then is what it
    prints on the earlier lines alone before [input] runs out of
    lines.  No exception of the search escapes. *)
Theorem search_lyrics_stops data_dict stopwords
    (before after : list string) (blank : string) :
  Forall (fun line => all_chars isspace_char line = false) before ->
  all_chars isspace_char blank = true ->
  exists out,
    search_lyrics data_dict stopwords (before ++ blank :: after)
    = Exits out after
    /\ search_lyrics data_dict stopwords before = EndOfInput out.
Proof.
  intros Hbefore Hblank.
  induction Hbefore as [|line before Hline Hbefore (out & Hexit & Hend)].
  - exists []. simpl. rewrite answer_cases.
    by rewrite bool_decide_eq_true_2 by (by apply query_of_empty).
  - destruct (answer_goes_on data_dict stopwords line Hline) as [out0 Hout].
    exists (out0 ++ out). simpl. by rewrite Hout, Hexit, Hend.
Qed.

End LoopMore.

(** ** Instances of the further properties *)

Lemma process_lyrics_words_witness :
  PyStr.isalpha "cat" = true /\ ("cat" ∉ stop_ex) /\ PyStr.lower "cat" = "cat".
Proof.
  apply (process_lyrics_words "The cat sat." stop_ex "cat").
  apply (bool_decide_unpack _). vm_compute. exact I.
Defined.

Lemma process_lyrics_app_witness :
  process_lyrics ("the cat" +:+ " " +:+ "sat") stop_ex
  = process_lyrics "the cat" stop_ex ∪ process_lyrics "sat" stop_ex.
Proof.
  apply (process_lyrics_app "the cat" " " "sat" stop_ex).
  - discriminate.
  - reflexivity.
Defined.

Lemma process_lyrics_blank_witness : process_lyrics "   " stop_ex = ∅.
Proof. apply (process_lyrics_blank "   " stop_ex). reflexivity. Defined.

Lemma process_lyrics_punctuated_witness :
  process_lyrics ("(" +:+ "Cat" +:+ "!)") stop_ex = process_lyrics "Cat" stop_ex
  /\ process_lyrics "Cat" stop_ex
     = if bool_decide (PyStr.lower "Cat" ∈ stop_ex) then ∅
       else {[PyStr.lower "Cat"]}.
Proof.
  apply (process_lyrics_punctuated "(" "Cat" "!)" stop_ex); reflexivity.
Defined.

Lemma read_stopwords_normalized_witness :
  PyStr.strip "the" = "the" /\ PyStr.lower "the" = "the".
Proof.
  apply (read_stopwords_normalized stop_fp_ex "the").
  apply (bool_decide_unpack _). vm_compute. exact I.
Defined.

Lemma read_stopwords_filtered_witness :
  PyStr.strip (PyStr.lower ("The" +:+ String (ascii_of_nat 10) ""))
  ∉ process_lyrics "the cat sat" (read_stopwords stop_fp_ex).
Proof.
  apply (read_stopwords_filtered stop_fp_ex).
  simpl. left. reflexivity.
Defined.

Lemma read_data_stores_valid_words_witness :
  validate_word "cat" stop_ex = true.
Proof.
  apply (read_data_stores_valid_words rows_ex stop_ex index_ex "Art1" "S1"
           {["cat"; "sat"]} "cat").
  - vm_compute. reflexivity.
  - vm_compute. reflexivity.
  - apply (bool_decide_unpack _). vm_compute. exact I.
Defined.

Lemma read_data_last_row_wins_witness :
  exists data_dict,
    read_data
      ( ["artist"; "song"; "text"]
        :: [ ["Art1"; "S1"; "the cat sat"] ]
        ++ ["Art1"; "S1"; "A bird sang"; "1999"]
        :: [ ["Art1"; "S2"; "a dog ran fast"] ])
      stop_ex
    = Ok data_dict
    /\ lookup2 data_dict "Art1" "S1"
       = Some (process_lyrics (PyStr.lower "A bird sang") stop_ex).
Proof.
  apply (read_data_last_row_wins ["artist"; "song"; "text"]
           [ ["Art1"; "S1"; "the cat sat"] ]
           [ ["Art1"; "S2"; "a dog ran fast"] ]
           "Art1" "S1" "A bird sang" ["1999"] stop_ex).
  - repeat constructor.
  - repeat constructor. simpl. discriminate.
Defined.

Lemma average_word_count_keys_witness :
  PyDict.keys [("Art1", (5 # 2)%Q)] = PyDict.keys index_ex.
Proof.
  apply (average_word_count_keys Qred index_ex [("Art1", (5 # 2)%Q)]).
  - apply (bool_decide_unpack _). vm_compute. exact I.
  - vm_compute. reflexivity.
Defined.

Lemma find_singers_vocab_words_witness :
  exists vocab,
    PyDict.get (find_singers_vocab index_ex) "Art1" = Some vocab
    /\ forall w,
        w ∈ vocab <->
        exists song word_set,
          In (song, word_set) songs_ex /\ w ∈ word_set.
Proof.
  apply (find_singers_vocab_words index_ex "Art1" songs_ex).
  - apply (bool_decide_unpack _). vm_compute. exact I.
  - reflexivity.
Defined.

Lemma find_singers_vocab_size_witness :
  exists vocab,
    PyDict.get (find_singers_vocab index_ex) "Art1" = Some vocab
    /\ size vocab <= 5
    /\ forall song word_set,
        In (song, word_set) songs_ex -> size word_set <= size vocab.
Proof.
  apply (find_singers_vocab_size index_ex "Art1" songs_ex).
  - apply (bool_decide_unpack _). vm_compute. exact I.
  - reflexivity.
Defined.

Lemma main_singers_list_tuples_witness :
  main_singers_list Qred index_ex = Ok [("Art1", (5 # 2)%Q, 5, 2)].
Proof.
  rewrite (main_singers_list_tuples Qred index_ex).
  - vm_compute. reflexivity.
  - apply (bool_decide_unpack _). vm_compute. exact I.
  - apply (bool_decide_unpack _). vm_compute. exact I.
Defined.

Lemma search_songs_monotone_witness :
  exists match_list match_list',
    search_songs index_ex {["cat"; "sat"]} = Ok match_list
    /\ search_songs index_ex {["cat"]} = Ok match_list'
    /\ forall pair, In pair match_list -> In pair match_list'.
Proof.
  apply (search_songs_monotone index_ex {["cat"; "sat"]} {["cat"]}).
  apply (bool_decide_unpack _). vm_compute. exact I.
Defined.

Lemma search_songs_union_witness :
  exists match_list match_list1 match_list2,
    search_songs index_ex ({["cat"]} ∪ {["sat"]}) = Ok match_list
    /\ search_songs index_ex {["cat"]} = Ok match_list1
    /\ search_songs index_ex {["sat"]} = Ok match_list2
    /\ forall pair,
        In pair match_list <-> In pair match_list1 /\ In pair match_list2.
Proof.
  apply (search_songs_union index_ex {["cat"]} {["sat"]}).
  apply (bool_decide_unpack _). vm_compute. exact I.
Defined.

Lemma search_songs_invalid_word_witness :
  search_songs index_ex {["the"; "cat"]} = Ok [].
Proof.
  apply (search_songs_invalid_word rows_ex stop_ex index_ex {["the"; "cat"]}
           "the").
  - vm_compute. reflexivity.
  - apply (bool_decide_unpack _). vm_compute. exact I.
  - vm_compute. reflexivity.
Defined.

Lemma answer_rejects_witness :
  answer index_ex stop_ex "cat, sat" = Ok (Some [ErrorInWords]).
Proof.
  apply (answer_rejects index_ex stop_ex "cat, sat" "cat,").
  - simpl. left. reflexivity.
  - vm_compute. reflexivity.
Defined.

Lemma answer_lists_witness :
  exists searched_list,
    search_songs index_ex (query_of "SAT Cat") = Ok searched_list
    /\ answer index_ex stop_ex "SAT Cat"
       = Ok (Some (SongCount (length searched_list)
                   :: match searched_list with
                      | [] => []
                      | _ => SongHeader
                             :: map song_row (take 5 searched_list)
                      end))
    /\ length (map song_row (take 5 searched_list)) <= 5.
Proof.
  apply (answer_lists index_ex stop_ex "SAT Cat").
  - reflexivity.
  - vm_compute. reflexivity.
Defined.

Lemma search_lyrics_stops_witness :
  exists out,
    search_lyrics index_ex stop_ex (["cat"; "dog!"] ++ " " :: ["sat"])
    = Exits out ["sat"]
    /\ search_lyrics index_ex stop_ex ["cat"; "dog!"] = EndOfInput out.
Proof.
  apply (search_lyrics_stops index_ex stop_ex ["cat"; "dog!"] ["sat"] " ").
  - repeat constructor.
  - reflexivity.
Defined.
